(** * Minesweeper_AI: the board, the sentences and the knowledge base

    A shallow embedding of [minesweeper.py].  Python integers are
    unbounded, so coordinates and counts are [Z]; Python sets of cells are
    [gset (Z * Z)]; the knowledge base is a list of sentences, iterated by
    index exactly as a Python list iterator does (so that removing from or
    appending to the list during a [for] loop behaves as in the source). *)

From stdpp Require Import base gmap sets list.
From Stdlib Require Import ZArith Lia.

Local Open Scope Z_scope.
Set Warnings "-clear-no-such-hyp".

Abbreviation cell := (Z * Z)%type.

(** ** Python values: outcomes, list subscripting and removal, ranges *)

Module Py.

Inductive exn : Type := IndexError | ValueError.

(** The outcome of running a piece of the program: it returns, it raises,
    or it is still running when the step budget (or the supply of random
    draws) is used up. *)
Inductive result (A : Type) : Type :=
  | Ok (a : A)
  | Raise (e : exn)
  | More.
Arguments Ok {A} a.
Arguments Raise {A} e.
Arguments More {A}.

Definition bind {A B} (r : result A) (k : A → result B) : result B :=
  match r with
  | Ok a => k a
  | Raise e => Raise e
  | More => More
  end.

(** [l[i]]: a negative index counts from the end, anything outside
    [-len, len) raises IndexError. *)
Definition getitem {A} (l : list A) (i : Z) : result A :=
  let n := Z.of_nat (length l) in
  if decide (0 <= i < n) then
    match l !! Z.to_nat i with Some a => Ok a | None => Raise IndexError end
  else if decide (- n <= i < 0) then
    match l !! Z.to_nat (n + i) with Some a => Ok a | None => Raise IndexError end
  else Raise IndexError.

(** [range(a, b)] *)
Definition range (a b : Z) : list Z := seqZ a (b - a).

(** [l.remove(x)]: the first element equal to [x] goes; [None] stands for
    the ValueError raised when there is none. *)
Fixpoint list_remove {A} `{EqDecision A} (x : A) (l : list A) : option (list A) :=
  match l with
  | [] => None
  | y :: l' => if decide (x = y) then Some l' else (y ::.) <$> list_remove x l'
  end.

(** [random.randrange(n)]: raises ValueError on an empty range, else
    returns some member of [0, n); [r] is the raw value supplied by the
    random source. *)
Definition randrange (n : Z) (r : Z) : result Z :=
  if decide (n <= 0) then Raise ValueError else Ok (r `mod` n).

End Py.

#[global] Instance result_bind : MBind Py.result := λ A B k r, Py.bind r k.

(** ** class Sentence *)

Record Sentence := mkSentence { cells : gset cell; count : Z }.

#[global] Instance Sentence_eq_dec : EqDecision Sentence.
Proof. solve_decision. Defined.

Module Sent.

(** [Sentence.__init__] copies the cell set. *)
Definition init (cs : gset cell) (n : Z) : Sentence := mkSentence cs n.

Definition known_mines (s : Sentence) : option (gset cell) :=
  if decide (Z.of_nat (size (cells s)) <= count s) then Some (cells s)
  else None.

Definition known_safes (s : Sentence) : option (gset cell) :=
  if decide (count s = 0) then Some (cells s) else None.

Definition mark_mine (s : Sentence) (c : cell) : Sentence :=
  if decide (c ∈ cells s)
  then mkSentence (cells s ∖ {[c]}) (count s - 1)
  else s.

Definition mark_safe (s : Sentence) (c : cell) : Sentence :=
  if decide (c ∈ cells s)
  then mkSentence (cells s ∖ {[c]}) (count s)
  else s.

(** The invariant the class docstring describes: [count] of the cells
    are mines. *)
Definition wf (s : Sentence) : Prop :=
  0 <= count s <= Z.of_nat (size (cells s)).

End Sent.

(** ** class Minesweeper *)

Module Board.

Record Minesweeper := mk {
  height : Z;
  width : Z;
  mines : gset cell;
  board : list (list bool);
  mines_found : gset cell
}.

(** The empty field built by the two nested [for] loops of [__init__]. *)
Definition empty_field (h w : Z) : list (list bool) :=
  replicate (Z.to_nat h) (replicate (Z.to_nat w) false).

(** [self.board[i][j] = True] *)
Definition set_true (b : list (list bool)) (i j : Z) : list (list bool) :=
  match b !! Z.to_nat i with
  | Some row => <[Z.to_nat i := <[Z.to_nat j := true]> row]> b
  | None => b
  end.

(** The [while len(self.mines) != mines] loop.  Every pass consumes two
    values of the random source; [More] means the source is used up and
    the loop has not ended. *)
Fixpoint place_mines (draws : list Z) (h w target : Z)
    (ms : gset cell) (b : list (list bool)) : Py.result (gset cell * list (list bool)) :=
  if decide (Z.of_nat (size ms) = target) then Py.Ok (ms, b)
  else
    match draws with
    | r1 :: draws1 =>
      i ← Py.randrange h r1;
      match draws1 with
      | r2 :: draws2 =>
        j ← Py.randrange w r2;
        row ← Py.getitem b i;
        isMine ← Py.getitem row j;
        if negb isMine
        then place_mines draws2 h w target ({[(i, j)]} ∪ ms) (set_true b i j)
        else place_mines draws2 h w target ms b
      | [] => _ ← Py.randrange w 0; Py.More
      end
    | [] => _ ← Py.randrange h 0; _ ← Py.randrange w 0; Py.More
    end.

(** [Minesweeper.__init__(height, width, mines)] run against the random
    source [draws]. *)
Definition init (h w target : Z) (draws : list Z) : Py.result Minesweeper :=
  '(ms, b) ← place_mines draws h w target ∅ (empty_field h w);
  Py.Ok (mk h w ms b ∅).

Definition is_mine (g : Minesweeper) (c : cell) : Py.result bool :=
  let '(i, j) := c in
  row ← Py.getitem (board g) i;
  Py.getitem row j.

(** The cells visited by the two nested [range] loops around a cell. *)
Definition around (c : cell) : list cell :=
  i ← Py.range (c.1 - 1) (c.1 + 2);
  j ← Py.range (c.2 - 1) (c.2 + 2);
  [(i, j)].

Definition nearby_mines (g : Minesweeper) (c : cell) : Py.result Z :=
  foldl (λ acc loc,
           cnt ← acc;
           if decide (loc = c) then Py.Ok cnt
           else if decide (0 <= loc.1 < height g ∧ 0 <= loc.2 < width g) then
             row ← Py.getitem (board g) loc.1;
             isMine ← Py.getitem row loc.2;
             Py.Ok (if isMine : bool then cnt + 1 else cnt)
           else Py.Ok cnt)
        (Py.Ok 0) (around c).

Definition won (g : Minesweeper) : bool :=
  bool_decide (mines_found g = mines g).

(** The shape [__init__] gives the board: [height] rows of [width]
    indicators. *)
Definition shape (h w : Z) (b : list (list bool)) : Prop :=
  length b = Z.to_nat h ∧ Forall (λ row : list bool, length row = Z.to_nat w) b.

Definition wf (g : Minesweeper) : Prop := shape (height g) (width g) (board g).

(** Every placed mine lies on the board. *)
Definition in_grid (h w : Z) (ms : gset cell) : Prop :=
  ∀ c, c ∈ ms → 0 <= c.1 < h ∧ 0 <= c.2 < w.

End Board.

(** ** class MinesweeperAI *)

Module AI.

Record MinesweeperAI := mk {
  height : Z;
  width : Z;
  moves_made : gset cell;
  mines : gset cell;
  safes : gset cell;
  knowledge : list Sentence
}.

Definition init (h w : Z) : MinesweeperAI := mk h w ∅ ∅ ∅ [].

Definition set_knowledge (st : MinesweeperAI) (kb : list Sentence) : MinesweeperAI :=
  mk (height st) (width st) (moves_made st) (mines st) (safes st) kb.

Definition mark_mine (st : MinesweeperAI) (c : cell) : MinesweeperAI :=
  mk (height st) (width st) (moves_made st) (mines st ∪ {[c]}) (safes st)
     ((λ s, Sent.mark_mine s c) <$> knowledge st).

Definition mark_safe (st : MinesweeperAI) (c : cell) : MinesweeperAI :=
  mk (height st) (width st) (moves_made st) (mines st) (safes st ∪ {[c]})
     ((λ s, Sent.mark_safe s c) <$> knowledge st).

(** *** add_knowledge, steps 1 to 3 *)

(** Step 3a: the body of the two nested loops, for one location. *)
Definition collect (st : MinesweeperAI) (c : cell) (newCells : gset cell)
    (loc : cell) : gset cell :=
  let '(i, j) := loc in
  if decide (i < 0 ∨ i > height st - 1 ∨ j < 0 ∨ j > width st - 1) then newCells
  else if decide (loc = c) then newCells
  else if decide ((loc ∉ moves_made st) ∧ (loc ∉ mines st) ∧ (loc ∉ safes st))
       then newCells ∪ {[loc]}
       else newCells.

Definition new_cells (st : MinesweeperAI) (c : cell) : gset cell :=
  foldl (collect st c) ∅ (Board.around c).

(** Steps 1, 2 and 3: record the move, mark it safe, append the new
    sentence when it has cells. *)
Definition add_sentence (st : MinesweeperAI) (c : cell) (n : Z) : MinesweeperAI :=
  let st1 := mk (height st) (width st) (moves_made st ∪ {[c]}) (mines st)
                (safes st) (knowledge st) in
  let st2 := mark_safe st1 c in
  let newCells := new_cells st2 c in
  if decide (size newCells ≠ 0%nat)
  then set_knowledge st2 (knowledge st2 ++ [Sent.init newCells n])
  else st2.

(** *** Step 4: the resolution pass *)

(** [for cell in safes: self.mark_safe(cell)] *)
Definition mark_safe_all (st : MinesweeperAI) (cs : gset cell) : MinesweeperAI :=
  foldl mark_safe st (elements cs).

Definition mark_mine_all (st : MinesweeperAI) (cs : gset cell) : MinesweeperAI :=
  foldl mark_mine st (elements cs).

(** [self.knowledge.remove(sentence)], where [sentence] is the object at
    position [idx]: the first sentence equal to its current value goes;
    ValueError when there is none. *)
Definition remove_at (st : MinesweeperAI) (idx : nat) : Py.result MinesweeperAI :=
  match knowledge st !! idx with
  | Some sentence =>
    match Py.list_remove sentence (knowledge st) with
    | Some kb => Py.Ok (set_knowledge st kb)
    | None => Py.Raise Py.ValueError
    end
  | None => Py.Raise Py.ValueError
  end.

(** [for sentence in self.knowledge]: the list iterator holds the index
    [idx] and stops when it is past the end of the list as it is then. *)
Fixpoint resolve_loop (fuel : nat) (idx : nat) (st : MinesweeperAI) (cycles : Z)
    : Py.result (MinesweeperAI * Z) :=
  match fuel with
  | O => Py.More
  | S fuel =>
    match knowledge st !! idx with
    | None => Py.Ok (st, cycles)
    | Some sentence =>
      match Sent.known_safes sentence with
      | Some safes =>
        st' ← remove_at (mark_safe_all st safes) idx;
        resolve_loop fuel (S idx) st' 2
      | None =>
        match Sent.known_mines sentence with
        | Some mines =>
          st' ← remove_at (mark_mine_all st mines) idx;
          resolve_loop fuel (S idx) st' 2
        | None => resolve_loop fuel (S idx) st cycles
        end
      end
    end
  end.

(** *** Step 5: the inference pass *)

(** [if newSentence not in self.knowledge: append; cycles = 2] *)
Definition add_inferred (kb : list Sentence) (cycles : Z) (cs : gset cell) (n : Z)
    : list Sentence * Z :=
  let newSentence := Sent.init cs n in
  if decide (newSentence ∉ kb) then (kb ++ [newSentence], 2) else (kb, cycles).

(** The body of the inner loop for one pair. *)
Definition infer_pair (kb : list Sentence) (cycles : Z) (sA sB : Sentence)
    : list Sentence * Z :=
  if decide (sA = sB) then (kb, cycles)
  else if decide (size (cells sA) = 0%nat ∨ size (cells sB) = 0%nat) then (kb, cycles)
  else
    let AB := cells sA ∖ cells sB in
    let BA := cells sB ∖ cells sA in
    let '(kb1, cycles1) :=
      if decide (size BA = 0%nat) then
        if decide (size AB ≠ 0%nat) then
          if decide (count sA - count sB > 0)
          then add_inferred kb cycles AB (count sA - count sB)
          else (kb, cycles)
        else (kb, cycles)
      else (kb, cycles) in
    if decide (size AB = 0%nat) then
      if decide (size BA ≠ 0%nat) then
        if decide (count sB - count sA > 0)
        then add_inferred kb1 cycles1 BA (count sB - count sA)
        else (kb1, cycles1)
      else (kb1, cycles1)
    else (kb1, cycles1).

(** [for sentenceB in self.knowledge] *)
Fixpoint infer_inner (fuel : nat) (sA : Sentence) (b : nat)
    (kb : list Sentence) (cycles : Z) : Py.result (list Sentence * Z) :=
  match fuel with
  | O => Py.More
  | S fuel =>
    match kb !! b with
    | None => Py.Ok (kb, cycles)
    | Some sB =>
      let '(kb', cycles') := infer_pair kb cycles sA sB in
      infer_inner fuel sA (S b) kb' cycles'
    end
  end.

(** [for sentenceA in self.knowledge] *)
Fixpoint infer_outer (fuel : nat) (a : nat) (kb : list Sentence) (cycles : Z)
    : Py.result (list Sentence * Z) :=
  match fuel with
  | O => Py.More
  | S fuel =>
    match kb !! a with
    | None => Py.Ok (kb, cycles)
    | Some sA =>
      '(kb', cycles') ← infer_inner fuel sA 0 kb cycles;
      infer_outer fuel (S a) kb' cycles'
    end
  end.

(** *** The [while cycles > 0] loop and add_knowledge *)

Fixpoint while_cycles (fuel : nat) (st : MinesweeperAI) (cycles : Z)
    : Py.result MinesweeperAI :=
  match fuel with
  | O => Py.More
  | S fuel =>
    if decide (cycles > 0) then
      '(st1, cycles1) ← resolve_loop fuel 0 st cycles;
      '(kb2, cycles2) ← infer_outer fuel 0 (knowledge st1) cycles1;
      while_cycles fuel (set_knowledge st1 kb2) (cycles2 - 1)
    else Py.Ok st
  end.

Definition add_knowledge (fuel : nat) (st : MinesweeperAI) (c : cell) (n : Z)
    : Py.result MinesweeperAI :=
  while_cycles fuel (add_sentence st c n) 1.

(** [make_safe_move] can return any member of this set. *)
Definition safe_moves (st : MinesweeperAI) : gset cell :=
  safes st ∖ moves_made st ∖ mines st.

End AI.

(** ** Probes, boards and the example of the spec *)

Module Scenario.

(** A board of one row and four columns with its only mine at (0,1). *)
Definition row_board : Board.Minesweeper :=
  Board.mk 1 4 {[(0, 1)]} [[false; true; false; false]] ∅.

(** A probe the driver can make: the cell is not a mine and the count is
    the one the board reports. *)
Definition board_valid (g : Board.Minesweeper) (probe : cell * Z) : Prop :=
  Board.is_mine g probe.1 = Py.Ok false
  ∧ Board.nearby_mines g probe.1 = Py.Ok probe.2.

(** A sequence of [add_knowledge] calls, each with [fuel] steps. *)
Definition play (fuel : nat) (st : AI.MinesweeperAI) (probes : list (cell * Z))
    : Py.result AI.MinesweeperAI :=
  foldl (λ r probe, st' ← r; AI.add_knowledge fuel st' probe.1 probe.2)
        (Py.Ok st) probes.

(** The state after probing (0,0), which reports one mine. *)
Definition after_first : AI.MinesweeperAI :=
  AI.mk 1 4 {[(0, 0)]} {[(0, 1)]} {[(0, 0)]} [].

End Scenario.

Module Spec.

(** Follows the spec's words: the reported count minus the number of
    in-bounds neighbours of the cell that are already known mines. *)
Definition adjusted_count (st : AI.MinesweeperAI) (c : cell) (n : Z) : Z :=
  n - Z.of_nat (length (filter
        (λ loc, loc ≠ c ∧ 0 <= loc.1 < AI.height st ∧ 0 <= loc.2 < AI.width st
                ∧ loc ∈ AI.mines st)
        (Board.around c))).

End Spec.

(** ** Pairs of sentences and their difference *)

Module Derive.

(** The sentence the inference pass derives from [big] and [small]. *)
Definition difference (big small : Sentence) : Sentence :=
  Sent.init (cells big ∖ cells small) (count big - count small).

(** [A] and [B] are distinct sentences with cells, those of [A] a proper
    subset of those of [B]. *)
Definition proper_pair (A B : Sentence) : Prop :=
  A ≠ B ∧ cells A ≠ ∅ ∧ cells B ≠ ∅ ∧ cells A ⊂ cells B.

End Derive.

Module Example.

Definition A : Sentence := mkSentence {[(0, 0); (0, 1)]} 1.
Definition B : Sentence := mkSentence {[(0, 0); (0, 1); (0, 2)]} 2.

End Example.

(** ** MinesweeperAI: choosing a move *)

Module Moves.

(** What a move selector gives back: a cell, [None], or the KeyError of
    [pop] on an empty set. *)
Inductive outcome : Type := Move (c : cell) | NoMove | KeyError.

(** [X.pop()]: returns a member of the set, which one is up to the
    implementation (the choice [r]); KeyError on an empty set. *)
Definition set_pop (X : gset cell) (r : nat) : outcome :=
  match elements X !! (r `mod` length (elements X))%nat with
  | Some c => Move c
  | None => KeyError
  end.

Definition make_safe_move (st : AI.MinesweeperAI) (r : nat) : outcome :=
  let availableSafeMoves := AI.safes st ∖ AI.moves_made st ∖ AI.mines st in
  if decide (size availableSafeMoves = 0%nat) then NoMove
  else set_pop availableSafeMoves r.

(** The set built by the two nested loops of [make_random_move]. *)
Definition all_moves (st : AI.MinesweeperAI) : gset cell :=
  foldl (λ allMoves c, allMoves ∪ {[c]}) ∅
        (i ← Py.range 0 (AI.height st); j ← Py.range 0 (AI.width st); [(i, j)]).

Definition make_random_move (st : AI.MinesweeperAI) (r : nat) : outcome :=
  let availableMoves := all_moves st ∖ AI.mines st ∖ AI.moves_made st in
  if decide (size availableMoves = 0%nat) then NoMove
  else set_pop availableMoves r.

End Moves.

(** ** What a sentence says about the mines of a board *)

Module Truth.

(** The sentence is true of the set of mines [M]: [count] of its cells are
    in [M] (the reading the docstring of [Sentence] gives). *)
Definition holds (M : gset cell) (s : Sentence) : Prop :=
  count s = Z.of_nat (size (cells s ∩ M)).

(** All the AI knows is true of [M]: no cell known safe or played is a
    mine, every known mine is one, and every sentence is true. *)
Definition sound (M : gset cell) (st : AI.MinesweeperAI) : Prop :=
  AI.safes st ## M ∧ AI.moves_made st ## M ∧ AI.mines st ⊆ M
  ∧ ∀ s, s ∈ AI.knowledge st → holds M s.

End Truth.

(** ** Minesweeper.print *)

Module Dump.

(** A line of text, as its characters. *)
Definition text : Type := list Ascii.ascii.

Definition dash : Ascii.ascii := Ascii.ascii_of_nat 45.
Definition bar : Ascii.ascii := Ascii.ascii_of_nat 124.
Definition ex : Ascii.ascii := Ascii.ascii_of_nat 88.
Definition blank : Ascii.ascii := Ascii.ascii_of_nat 32.

(** ["--" * width + "-"]; a negative factor gives the empty string. *)
Definition rule (w : Z) : text := mjoin (replicate (Z.to_nat w) [dash; dash]) ++ [dash].

(** The inner loop over [j]: the marks of row [i], each printed with
    [end=""]. *)
Fixpoint row_marks (b : list (list bool)) (i : Z) (js : list Z) : Py.result text :=
  match js with
  | [] => Py.Ok []
  | j :: js' =>
    row ← Py.getitem b i;
    isMine ← Py.getitem row j;
    rest ← row_marks b i js';
    Py.Ok ((if isMine : bool then [bar; ex] else [bar; blank]) ++ rest)
  end.

(** The outer loop over [i]: a rule, then the marks of the row closed by
    a bar. *)
Fixpoint rows (b : list (list bool)) (w : Z) (idxs : list Z) : Py.result (list text) :=
  match idxs with
  | [] => Py.Ok []
  | i :: idxs' =>
    marks ← row_marks b i (Py.range 0 w);
    rest ← rows b w idxs';
    Py.Ok (rule w :: (marks ++ [bar]) :: rest)
  end.

(** The lines a call of [print] that returns has printed. *)
Definition print (g : Board.Minesweeper) : Py.result (list text) :=
  lines ← rows (Board.board g) (Board.width g) (Py.range 0 (Board.height g));
  Py.Ok (lines ++ [rule (Board.width g)]).

End Dump.

(** * Properties of Sentence *)

Section SentenceFacts.

Implicit Types (s : Sentence) (c : cell).

Lemma size_remove_cell (X : gset cell) c :
  c ∈ X → Z.of_nat (size (X ∖ {[c]})) = Z.of_nat (size X) - 1.
Proof.
  intros Hc.
  assert (size X = S (size (X ∖ {[c]}))) as ->; [|lia].
  rewrite (union_difference_L {[c]} X) at 1 by set_solver.
  rewrite size_union by set_solver.
  rewrite size_singleton. lia.
Qed.

Lemma mark_mine_in s c :
  c ∈ cells s → Sent.mark_mine s c = mkSentence (cells s ∖ {[c]}) (count s - 1).
Proof. intros. unfold Sent.mark_mine. by rewrite decide_True. Qed.

Lemma mark_mine_notin s c : c ∉ cells s → Sent.mark_mine s c = s.
Proof. intros. unfold Sent.mark_mine. by rewrite decide_False. Qed.

Lemma mark_safe_in s c :
  c ∈ cells s → Sent.mark_safe s c = mkSentence (cells s ∖ {[c]}) (count s).
Proof. intros. unfold Sent.mark_safe. by rewrite decide_True. Qed.

Lemma mark_safe_notin s c : c ∉ cells s → Sent.mark_safe s c = s.
Proof. intros. unfold Sent.mark_safe. by rewrite decide_False. Qed.

Lemma mark_mine_cells s c : cells (Sent.mark_mine s c) = cells s ∖ {[c]}.
Proof.
  unfold Sent.mark_mine. case_decide; simpl; [done|]. set_solver.
Qed.

Lemma mark_safe_cells s c : cells (Sent.mark_safe s c) = cells s ∖ {[c]}.
Proof.
  unfold Sent.mark_safe. case_decide; simpl; [done|]. set_solver.
Qed.

Lemma mark_safe_count s c : count (Sent.mark_safe s c) = count s.
Proof. unfold Sent.mark_safe. by case_decide. Qed.

Lemma mark_mine_twice s c :
  Sent.mark_mine (Sent.mark_mine s c) c = Sent.mark_mine s c.
Proof. apply mark_mine_notin. rewrite mark_mine_cells. set_solver. Qed.

Lemma mark_safe_twice s c :
  Sent.mark_safe (Sent.mark_safe s c) c = Sent.mark_safe s c.
Proof. apply mark_safe_notin. rewrite mark_safe_cells. set_solver. Qed.

End SentenceFacts.

(** C3, as stated, fails: marking safe a cell of a sentence whose cells are
    all mines leaves the count above the number of cells, and marking as a
    mine a cell of a sentence without mines makes the count negative. *)
Lemma mark_breaks_count_bounds :
  (Sent.wf (mkSentence {[(0, 0)]} 1)
   ∧ ¬ Sent.wf (Sent.mark_safe (mkSentence {[(0, 0)]} 1) (0, 0)))
  ∧ (Sent.wf (mkSentence {[(0, 0)]} 0)
     ∧ ¬ Sent.wf (Sent.mark_mine (mkSentence {[(0, 0)]} 0) (0, 0))).
Proof.
  unfold Sent.wf. vm_compute. repeat split; try discriminate.
  - intros [_ H]. by apply H.
  - intros [H _]. by apply H.
Qed.

(** C3 (amended): on a sentence with [0 <= count <= |cells|], [mark_mine]
    keeps the bounds exactly when the cell is absent or the count is at
    least 1, and [mark_safe] keeps them exactly when the cell is absent or
    the count is below the number of cells. *)
Theorem mark_keeps_count_bounds (s : Sentence) (c : cell) :
  Sent.wf s →
  (Sent.wf (Sent.mark_mine s c) ↔ c ∉ cells s ∨ 1 <= count s)
  ∧ (Sent.wf (Sent.mark_safe s c)
     ↔ c ∉ cells s ∨ count s < Z.of_nat (size (cells s))).
Proof.
  unfold Sent.wf. intros Hwf.
  destruct (decide (c ∈ cells s)) as [Hin|Hout].
  - rewrite (mark_mine_in s c Hin), (mark_safe_in s c Hin). simpl.
    rewrite (size_remove_cell _ _ Hin).
    split; split; try tauto; try lia; intros [?|?]; (done || lia).
  - rewrite (mark_mine_notin s c Hout), (mark_safe_notin s c Hout).
    split; split; auto.
Qed.

Lemma mark_keeps_count_bounds_witness :
  Sent.wf (mkSentence {[(0, 0); (0, 1)]} 1)
  ∧ Sent.wf (Sent.mark_mine (mkSentence {[(0, 0); (0, 1)]} 1) (0, 1))
  ∧ Sent.wf (Sent.mark_safe (mkSentence {[(0, 0); (0, 1)]} 1) (0, 1)).
Proof.
  assert (Hwf : Sent.wf (mkSentence {[(0, 0); (0, 1)]} 1)).
  { unfold Sent.wf. vm_compute. split; discriminate. }
  split; [exact Hwf|].
  destruct (mark_keeps_count_bounds _ (0, 1) Hwf) as [Hm Hs].
  split.
  - apply Hm. right. simpl. lia.
  - apply Hs. right. vm_compute. reflexivity.
Defined.

(** C5 at its failing input: the sentence [{(0,0)} = 2] is in neither of
    the two listed states (its count is not 0 and not the number of its
    cells), and [known_mines] returns its cells where the claim, like the
    comment above the test in the source, expects none.  [add_knowledge]
    builds such a sentence: after the probe of (0,0) on a one-row board
    with mines at (0,1) and (0,3), the probe of (0,2) reports 2 and
    appends [{(0,3)} = 2]. *)
Theorem known_mines_above_size :
  let s := mkSentence {[(0, 0)]} 2 in
  (count s ≠ 0
   ∧ count s ≠ Z.of_nat (size (cells s))
   ∧ Sent.known_safes s = None
   ∧ Sent.known_mines s = Some {[(0, 0)]})
  ∧ AI.knowledge (AI.add_sentence Scenario.after_first (0, 2) 2)
    = [mkSentence {[(0, 3)]} 2]
  ∧ Sent.known_mines (mkSentence {[(0, 3)]} 2) = Some {[(0, 3)]}.
Proof. vm_compute. repeat split; discriminate. Qed.

(** The states in which the two queries answer: [known_safes] returns the
    cells exactly when [count = 0]; [known_mines] returns them exactly when
    [|cells| <= count]; both return none exactly when [count ≠ 0] and
    [count < |cells|]. *)
Lemma known_cells_by_state (s : Sentence) :
  (Sent.known_safes s = Some (cells s) ↔ count s = 0)
  ∧ (Sent.known_mines s = Some (cells s) ↔ Z.of_nat (size (cells s)) <= count s)
  ∧ (Sent.known_safes s = None ∧ Sent.known_mines s = None
     ↔ count s ≠ 0 ∧ count s < Z.of_nat (size (cells s))).
Proof.
  unfold Sent.known_safes, Sent.known_mines.
  destruct (decide (count s = 0)) as [H0|H0];
    destruct (decide (Z.of_nat (size (cells s)) <= count s)) as [Hle|Hle];
    (split; [|split]); split; intros H; try done; try lia;
    destruct H; (done || lia).
Qed.

(** C9: [known_mines] returns the cells for every state with
    [count >= |cells|] and none exactly when [count < |cells|]; this covers
    the state reached by [mark_safe] on a sentence with [count = |cells|]
    (count strictly above the number of cells) and the empty sentence with
    count 0. *)
Theorem known_mines_threshold :
  (∀ s, Sent.known_mines s = Some (cells s) ↔ count s >= Z.of_nat (size (cells s)))
  ∧ (∀ s, Sent.known_mines s = None ↔ count s < Z.of_nat (size (cells s)))
  ∧ (∀ s c, c ∈ cells s → count s = Z.of_nat (size (cells s)) →
       let s' := Sent.mark_safe s c in
       count s' > Z.of_nat (size (cells s'))
       ∧ Sent.known_mines s' = Some (cells s'))
  ∧ Sent.known_mines (mkSentence ∅ 0) = Some ∅.
Proof.
  split; [|split; [|split]].
  - intros s. unfold Sent.known_mines. case_decide; split; try done; lia.
  - intros s. unfold Sent.known_mines. case_decide; split; try done; lia.
  - intros s c Hin Hcnt. simpl. rewrite (mark_safe_in s c Hin).
    unfold Sent.known_mines. simpl. rewrite (size_remove_cell _ _ Hin).
    rewrite decide_True by lia. split; [lia|done].
  - reflexivity.
Qed.

Lemma known_mines_threshold_witness :
  let s := mkSentence {[(0, 0)]} 1 in
  (0, 0) ∈ cells s
  ∧ count s = Z.of_nat (size (cells s))
  ∧ count (Sent.mark_safe s (0, 0)) > Z.of_nat (size (cells (Sent.mark_safe s (0, 0))))
  ∧ Sent.known_mines (Sent.mark_safe s (0, 0)) = Some (cells (Sent.mark_safe s (0, 0))).
Proof.
  intros s.
  assert (Hin : (0, 0) ∈ cells s) by (simpl; set_solver).
  assert (Hc : count s = Z.of_nat (size (cells s))) by (vm_compute; reflexivity).
  split; [exact Hin|]. split; [exact Hc|].
  destruct known_mines_threshold as (_ & _ & H & _).
  exact (H s (0, 0) Hin Hc).
Defined.

(** * Properties of the board *)

Section BoardFacts.

Lemma getitem_in_range {A} (l : list A) (i : Z) :
  - Z.of_nat (length l) <= i < Z.of_nat (length l) →
  ∃ a, l !! Z.to_nat (i `mod` Z.of_nat (length l)) = Some a
       ∧ Py.getitem l i = Py.Ok a.
Proof.
  intros Hi. unfold Py.getitem. cbv zeta.
  set (n := Z.of_nat (length l)) in *.
  destruct (decide (0 <= i < n)) as [Hpos|Hneg].
  - rewrite Z.mod_small by lia.
    destruct (lookup_lt_is_Some_2 l (Z.to_nat i)) as [a Ha]; [lia|].
    exists a. by rewrite Ha.
  - rewrite decide_True by lia.
    assert (i `mod` n = n + i) as ->.
    { symmetry. apply (Z.mod_unique_pos i n (-1) (n + i)); lia. }
    destruct (lookup_lt_is_Some_2 l (Z.to_nat (n + i))) as [a Ha]; [lia|].
    exists a. by rewrite Ha.
Qed.

Lemma getitem_outside {A} (l : list A) (i : Z) :
  Z.of_nat (length l) <= i ∨ i < - Z.of_nat (length l) →
  Py.getitem l i = Py.Raise Py.IndexError.
Proof.
  intros Hi. unfold Py.getitem. cbv zeta.
  rewrite decide_False by lia. by rewrite decide_False by lia.
Qed.

Lemma getitem_cases {A} (l : list A) (i : Z) :
  (∃ a, a ∈ l ∧ Py.getitem l i = Py.Ok a)
  ∨ Py.getitem l i = Py.Raise Py.IndexError.
Proof.
  unfold Py.getitem. cbv zeta.
  repeat case_decide; try (by right);
    match goal with |- context [l !! ?k] => destruct (l !! k) as [a|] eqn:E end;
    try (by right); left; exists a; split; try done;
    by eapply list_elem_of_lookup_2.
Qed.

End BoardFacts.

Module BoardInv.

Lemma empty_field_shape h w : Board.shape h w (Board.empty_field h w).
Proof.
  unfold Board.shape, Board.empty_field. split.
  - by rewrite length_replicate.
  - apply Forall_replicate. by rewrite length_replicate.
Qed.

Lemma set_true_shape h w b i j : Board.shape h w b → Board.shape h w (Board.set_true b i j).
Proof.
  intros [Hlen Hrows]. unfold Board.set_true.
  destruct (b !! Z.to_nat i) as [row|] eqn:Hrow; [|done].
  split.
  - by rewrite length_insert.
  - apply Forall_insert; [done|]. rewrite length_insert.
    eapply (proj1 (Forall_lookup _ _) Hrows); eauto.
Qed.

Lemma place_mines_shape_aux h w target ms' b' (n : nat) :
  ∀ draws ms b, (length draws ≤ n)%nat → Board.shape h w b →
  Board.place_mines draws h w target ms b = Py.Ok (ms', b') →
  Board.shape h w b'.
Proof.
  induction n as [|n IHn]; intros draws ms b Hn Hb;
    (destruct draws as [|r1 [|r2 draws2]]; simpl in Hn |- *; try lia);
    (case_decide; [by intros [= <- <-]|]);
    unfold Py.randrange; repeat case_decide; try discriminate; simpl.
  destruct (Py.getitem b _) as [row| |]; simpl; try discriminate.
  destruct (Py.getitem row _) as [[]| |]; simpl; try discriminate.
  - apply IHn; [lia|done].
  - apply IHn; [lia|]. by apply set_true_shape.
Qed.

Lemma place_mines_shape draws h w target ms b ms' b' :
  Board.shape h w b →
  Board.place_mines draws h w target ms b = Py.Ok (ms', b') →
  Board.shape h w b'.
Proof. by apply (place_mines_shape_aux h w target ms' b' (length draws)). Qed.

Lemma init_wf h w target draws g :
  Board.init h w target draws = Py.Ok g → Board.wf g.
Proof.
  unfold Board.init.
  destruct (Board.place_mines _ _ _ _ _ _) as [[ms b]| |] eqn:E; simpl; try discriminate.
  intros [= <-]. unfold Board.wf. simpl.
  eapply (place_mines_shape _ _ _ _ _ _ _ _ (empty_field_shape h w) E).
Qed.

End BoardInv.

(** C10: on a board of the shape [__init__] builds, [is_mine((i, j))]
    with [-height <= i < height] and [-width <= j < width] returns the
    indicator stored at [(i mod height, j mod width)] (negative indices
    wrap around), and raises IndexError when [i >= height] or
    [j >= width]. *)
Theorem is_mine_wraps_negative (g : Board.Minesweeper) (i j : Z) :
  Board.wf g →
  (- Board.height g <= i < Board.height g →
   - Board.width g <= j < Board.width g →
   ∃ row b,
     Board.board g !! Z.to_nat (i `mod` Board.height g) = Some row
     ∧ row !! Z.to_nat (j `mod` Board.width g) = Some b
     ∧ Board.is_mine g (i, j) = Py.Ok b
     ∧ Board.is_mine g (i `mod` Board.height g, j `mod` Board.width g) = Py.Ok b)
  ∧ (Board.height g <= i ∨ Board.width g <= j →
     Board.is_mine g (i, j) = Py.Raise Py.IndexError).
Proof.
  intros [Hlen Hrows]. split.
  - intros Hi Hj.
    assert (Hh : Z.of_nat (length (Board.board g)) = Board.height g) by lia.
    destruct (getitem_in_range (Board.board g) i) as (row & Hrow & Hget); [lia|].
    rewrite Hh in Hrow.
    assert (Hw : Z.of_nat (length row) = Board.width g).
    { pose proof (proj1 (Forall_lookup _ _) Hrows _ _ Hrow) as Hr. simpl in Hr. lia. }
    destruct (getitem_in_range row j) as (b & Hb & Hgetj); [lia|].
    rewrite Hw in Hb.
    exists row, b. split; [done|]. split; [done|]. split.
    + unfold Board.is_mine. rewrite Hget. simpl. done.
    + pose proof (Z.mod_pos_bound i (Board.height g)) as Hmi.
      pose proof (Z.mod_pos_bound j (Board.width g)) as Hmj.
      destruct (getitem_in_range (Board.board g) (i `mod` Board.height g))
        as (row' & Hrow' & Hget'); [lia|].
      rewrite Hh, Z.mod_mod in Hrow' by lia.
      assert (row' = row) as -> by congruence.
      destruct (getitem_in_range row (j `mod` Board.width g))
        as (b' & Hb' & Hgetj'); [lia|].
      rewrite Hw, Z.mod_mod in Hb' by lia.
      assert (b' = b) as -> by congruence.
      unfold Board.is_mine. rewrite Hget'. simpl. done.
  - intros [Hi|Hj]; unfold Board.is_mine.
    + by rewrite getitem_outside by lia.
    + destruct (getitem_cases (Board.board g) i) as [(row & Hin & ->)| ->]; [|done].
      simpl. apply getitem_outside.
      pose proof (proj1 (Forall_forall _ _) Hrows _ Hin) as Hr. simpl in Hr. lia.
Qed.

Lemma is_mine_wraps_negative_witness :
  let g := Board.mk 2 2 {[(0, 0); (1, 1)]} [[true; false]; [false; true]] ∅ in
  Board.wf g
  ∧ Board.is_mine g (-1, -2) = Py.Ok false
  ∧ Board.is_mine g (2, 0) = Py.Raise Py.IndexError.
Proof.
  intros g.
  assert (Hwf : Board.wf g).
  { unfold Board.wf. simpl. split; [reflexivity|]. repeat constructor. }
  split; [exact Hwf|].
  destruct (is_mine_wraps_negative g (-1) (-2) Hwf) as [Hin _].
  destruct (is_mine_wraps_negative g 2 0 Hwf) as [_ Hout].
  split.
  - destruct Hin as (row & b & Hrow & Hb & Hm & _); [simpl; lia|simpl; lia|].
    vm_compute in Hrow. injection Hrow as <-.
    vm_compute in Hb. injection Hb as <-. exact Hm.
  - apply Hout. left. simpl. lia.
Defined.

(** ** Board construction *)

Module Placement.

Definition grid (h w : Z) : list cell := cprod (seqZ 0 h) (seqZ 0 w).

Lemma size_list_to_set_le (l : list cell) :
  (size (list_to_set l : gset cell) ≤ length l)%nat.
Proof.
  induction l as [|x l IH].
  - rewrite list_to_set_nil, size_empty. simpl. lia.
  - rewrite list_to_set_cons, size_union_alt, size_singleton. simpl.
    pose proof (subseteq_size (list_to_set l ∖ {[x]}) (list_to_set l : gset cell)) as Hs.
    assert (list_to_set l ∖ {[x]} ⊆ (list_to_set l : gset cell)) as Hsub by set_solver.
    specialize (Hs Hsub). lia.
Qed.

Lemma length_grid h w : 0 <= h → 0 <= w → Z.of_nat (length (grid h w)) = h * w.
Proof.
  intros Hh Hw. unfold grid. rewrite list_cprod_list_prod, length_prod, !length_seqZ.
  lia.
Qed.

Lemma in_grid_size h w ms :
  0 <= h → 0 <= w → Board.in_grid h w ms → Z.of_nat (size ms) <= h * w.
Proof.
  intros Hh Hw Hin.
  assert (Hsub : ms ⊆ list_to_set (grid h w)).
  { intros c Hc. apply elem_of_list_to_set. unfold grid.
    apply list_elem_of_cprod. destruct (Hin c Hc) as [Hi Hj].
    split; apply elem_of_seqZ; lia. }
  apply subseteq_size in Hsub.
  pose proof (size_list_to_set_le (grid h w)) as Hle.
  rewrite <- (length_grid h w) by done. lia.
Qed.

Lemma in_grid_insert h w ms i j :
  0 <= i < h → 0 <= j < w → Board.in_grid h w ms → Board.in_grid h w ({[(i, j)]} ∪ ms).
Proof.
  intros Hi Hj Hin c Hc. apply elem_of_union in Hc as [Hc|Hc].
  - apply elem_of_singleton in Hc as ->. done.
  - by apply Hin.
Qed.

(** What the loop returns, when it returns. *)
Lemma place_mines_ok h w target ms' b' (n : nat) :
  ∀ draws ms b, (length draws ≤ n)%nat → Board.in_grid h w ms →
  Board.place_mines draws h w target ms b = Py.Ok (ms', b') →
  Z.of_nat (size ms') = target ∧ Board.in_grid h w ms'.
Proof.
  induction n as [|n IHn]; intros draws ms b Hn Hms;
    (destruct draws as [|r1 [|r2 draws2]]; simpl in Hn |- *; try lia);
    (case_decide; [by intros [= <- <-]|]);
    unfold Py.randrange; repeat case_decide; try discriminate; simpl.
  destruct (Py.getitem b _) as [row| |]; simpl; try discriminate.
  destruct (Py.getitem row _) as [[]| |]; simpl; try discriminate.
  - apply IHn; [lia|done].
  - apply IHn; [lia|].
    apply in_grid_insert; [apply Z.mod_pos_bound; lia..|done].
Qed.

(** On a board with at least one cell the loop never raises. *)
Lemma place_mines_no_raise h w target (n : nat) :
  0 < h → 0 < w →
  ∀ draws ms b e, (length draws ≤ n)%nat → Board.shape h w b →
  Board.place_mines draws h w target ms b ≠ Py.Raise e.
Proof.
  intros Hh Hw.
  induction n as [|n IHn]; intros draws ms b e Hn Hb;
    (destruct draws as [|r1 [|r2 draws2]]; simpl in Hn |- *; try lia);
    (case_decide; [done|]);
    unfold Py.randrange; repeat case_decide; try lia; try done; simpl.
  destruct Hb as [Hlen Hrows].
  pose proof (Z.mod_pos_bound r1 h Hh) as Hi.
  pose proof (Z.mod_pos_bound r2 w Hw) as Hj.
  destruct (getitem_in_range b (r1 `mod` h)) as (row & Hrow & ->); [lia|]. simpl.
  assert (Hr : length row = Z.to_nat w).
  { apply list_elem_of_lookup_2 in Hrow.
    exact (proj1 (Forall_forall _ _) Hrows _ Hrow). }
  destruct (getitem_in_range row (r2 `mod` w)) as (m & _ & ->); [lia|]. simpl.
  destruct m; simpl.
  - apply IHn; [lia|done].
  - apply IHn; [lia|]. by apply BoardInv.set_true_shape.
Qed.

(** Without cells the first pass of the loop raises. *)
Lemma place_mines_empty_range h w target draws ms b :
  Z.of_nat (size ms) ≠ target → h <= 0 ∨ w <= 0 →
  Board.place_mines draws h w target ms b = Py.Raise Py.ValueError.
Proof.
  intros Hne Hhw.
  destruct draws as [|r1 [|r2 draws2]]; simpl;
    rewrite decide_False by done;
    unfold Py.randrange; repeat case_decide; try done; lia.
Qed.

(** *** A run of the loop that fills the board in row-major order *)

(** The indicator grid and the set of mines agree. *)
Definition agree (h w : Z) (ms : gset cell) (b : list (list bool)) : Prop :=
  ∀ i j, 0 <= i < h → 0 <= j < w →
    ∃ row, b !! Z.to_nat i = Some row
           ∧ row !! Z.to_nat j = Some (bool_decide ((i, j) ∈ ms)).

Lemma getitem_nonneg {A} (l : list A) (i : Z) (a : A) :
  0 <= i → l !! Z.to_nat i = Some a → Py.getitem l i = Py.Ok a.
Proof.
  intros Hi Hl. pose proof (lookup_lt_Some _ _ _ Hl) as Hlt.
  unfold Py.getitem. cbv zeta. rewrite decide_True by lia. by rewrite Hl.
Qed.

Lemma empty_field_agree h w : agree h w ∅ (Board.empty_field h w).
Proof.
  intros i j Hi Hj. exists (replicate (Z.to_nat w) false). split.
  - unfold Board.empty_field. apply lookup_replicate_2. lia.
  - rewrite bool_decide_eq_false_2 by set_solver.
    apply lookup_replicate_2. lia.
Qed.

Lemma set_true_agree h w ms b i j :
  0 <= i < h → 0 <= j < w → agree h w ms b →
  agree h w ({[(i, j)]} ∪ ms) (Board.set_true b i j).
Proof.
  intros Hi Hj Hag i' j' Hi' Hj'.
  destruct (Hag i j Hi Hj) as (row & Hrow & Hcell).
  destruct (Hag i' j' Hi' Hj') as (row' & Hrow' & Hcell').
  unfold Board.set_true. rewrite Hrow.
  destruct (decide (i' = i)) as [->|Hne].
  - assert (row' = row) as -> by congruence.
    exists (<[Z.to_nat j := true]> row). split.
    + apply list_lookup_insert_eq. by eapply lookup_lt_Some.
    + destruct (decide (j' = j)) as [->|Hnej].
      * rewrite bool_decide_eq_true_2 by set_solver.
        apply list_lookup_insert_eq. by eapply lookup_lt_Some.
      * rewrite list_lookup_insert_ne by lia. rewrite Hcell'. f_equal.
        apply bool_decide_ext. set_solver.
  - exists row'. split.
    + rewrite list_lookup_insert_ne by lia. done.
    + rewrite Hcell'. f_equal. apply bool_decide_ext. set_solver.
Qed.

(** The [k]-th cell in row-major order, and the random values that make
    the loop pick the cells [k], [k+1], ... in turn. *)
Definition nth_cell (w k : Z) : cell := (k `div` w, k `mod` w).

Fixpoint row_major_draws (w k : Z) (n : nat) : list Z :=
  match n with
  | O => []
  | S n' => k `div` w :: k `mod` w :: row_major_draws w (k + 1) n'
  end.

Lemma nth_cell_inj w k k' : 0 < w → nth_cell w k = nth_cell w k' → k = k'.
Proof.
  intros Hw [= Hd Hm].
  rewrite (Z.div_mod k w), (Z.div_mod k' w) by lia. congruence.
Qed.

Lemma place_mines_fills h w target (n : nat) :
  0 < h → 0 < w → target <= h * w →
  ∀ k ms b,
    0 <= k → k + Z.of_nat n = target →
    agree h w ms b → Z.of_nat (size ms) = k →
    (∀ c, c ∈ ms → ∃ k', 0 <= k' < k ∧ c = nth_cell w k') →
    ∃ ms' b',
      Board.place_mines (row_major_draws w k n) h w target ms b = Py.Ok (ms', b').
Proof.
  intros Hh Hw Hcap. induction n as [|n IH]; intros k ms b Hk Hn Hag Hsz Hms; simpl.
  - rewrite decide_True by lia. eauto.
  - rewrite decide_False by lia.
    assert (Hi : 0 <= k `div` w < h).
    { split; [apply Z.div_pos; lia|]. apply Z.div_lt_upper_bound; lia. }
    pose proof (Z.mod_pos_bound k w Hw) as Hj.
    unfold Py.randrange. rewrite !decide_False by lia. simpl.
    rewrite (Z.mod_small (k `div` w) h) by done.
    rewrite Z.mod_mod by lia.
    destruct (Hag _ _ Hi Hj) as (row & Hrow & Hcell).
    assert (Hfresh : (k `div` w, k `mod` w) ∉ ms).
    { intros Hin. destruct (Hms _ Hin) as (k' & Hk' & Heq).
      apply (nth_cell_inj w k k' Hw) in Heq. lia. }
    rewrite bool_decide_eq_false_2 in Hcell by done.
    rewrite (getitem_nonneg b _ row) by (lia || done). simpl.
    rewrite (getitem_nonneg row _ false) by (lia || done). simpl.
    apply (IH (k + 1)); [lia|lia| | |].
    + by apply set_true_agree.
    + rewrite size_union by set_solver. rewrite size_singleton. lia.
    + intros c [Hc|Hc]%elem_of_union.
      * apply elem_of_singleton in Hc as ->. exists k. split; [lia|done].
      * destruct (Hms c Hc) as (k' & Hk' & ->). exists k'. split; [lia|done].
Qed.

End Placement.

(** C7, as stated, fails: with two mines asked for on a one-cell board,
    [__init__] reports no error; however many random draws it is given,
    the loop is still running at the end of them. *)
Lemma init_overfull_not_rejected :
  1 * 1 < 2
  ∧ (∀ draws, Board.init 1 1 2 draws = Py.More)
  ∧ Board.init 1 1 2 [0; 0; 0; 0; 0; 0] ≠ Py.Raise Py.ValueError.
Proof.
  split; [lia|].
  assert (H : ∀ draws, Board.init 1 1 2 draws = Py.More).
  { intros draws. unfold Board.init.
    destruct (Board.place_mines draws 1 1 2 ∅ (Board.empty_field 1 1))
      as [[ms b]|e|] eqn:E; [| |done].
    - apply (Placement.place_mines_ok 1 1 2 ms b (length draws)) in E as [Hsz Hin];
        [|done|intros c Hc; set_solver].
      apply Placement.in_grid_size in Hin; lia.
    - exfalso. revert E.
      apply (Placement.place_mines_no_raise 1 1 2 (length draws)); try done.
      apply BoardInv.empty_field_shape. }
  split; [exact H|]. by rewrite H.
Qed.

(** C7 (amended): [__init__] does not validate the mine count.  With
    [height, width >= 1] and a mine count above [height*width] (or below
    zero) the placement loop neither returns nor raises, whatever the
    random draws; with [height <= 0] or [width <= 0] and a non-zero mine
    count the first [randrange] raises ValueError.  With
    [height, width >= 1] and [0 <= mines <= height*width] it never raises
    and there are draws with which it returns.  Whenever construction
    returns, the mine count is between 0 and the capacity and exactly that
    many mines, all on the board, have been placed. *)
Theorem init_outcomes (h w target : Z) (draws : list Z) :
  (0 < h → 0 < w → h * w < target ∨ target < 0 →
   Board.init h w target draws = Py.More)
  ∧ (h <= 0 ∨ w <= 0 → target ≠ 0 →
     Board.init h w target draws = Py.Raise Py.ValueError)
  ∧ (0 < h → 0 < w → 0 <= target <= h * w →
     (∀ e, Board.init h w target draws ≠ Py.Raise e)
     ∧ ∃ draws' g, Board.init h w target draws' = Py.Ok g)
  ∧ (∀ g, Board.init h w target draws = Py.Ok g →
       Z.of_nat (size (Board.mines g)) = target
       ∧ Board.in_grid h w (Board.mines g)
       ∧ Board.wf g
       ∧ (target = 0 ∨ (0 < h ∧ 0 < w ∧ 0 < target <= h * w))).
Proof.
  assert (Hok : ∀ ms b,
    Board.place_mines draws h w target ∅ (Board.empty_field h w) = Py.Ok (ms, b) →
    Z.of_nat (size ms) = target ∧ Board.in_grid h w ms).
  { intros ms b E.
    apply (Placement.place_mines_ok h w target ms b (length draws)) in E;
      [done|done|intros c Hc; set_solver]. }
  assert (Hnr : 0 < h → 0 < w → ∀ e,
    Board.place_mines draws h w target ∅ (Board.empty_field h w) ≠ Py.Raise e).
  { intros Hh Hw e.
    apply (Placement.place_mines_no_raise h w target (length draws)); try done.
    apply BoardInv.empty_field_shape. }
  split; [|split; [|split]].
  - intros Hh Hw Htarget. unfold Board.init.
    specialize (Hnr Hh Hw).
    destruct (Board.place_mines draws h w target ∅ (Board.empty_field h w))
      as [[ms b]|e|] eqn:E; [| |done].
    + destruct (Hok _ _ eq_refl) as [Hsz Hin].
      apply Placement.in_grid_size in Hin; lia.
    + by destruct (Hnr e).
  - intros Hhw Htarget. unfold Board.init.
    rewrite Placement.place_mines_empty_range; [done| |done].
    by rewrite size_empty.
  - intros Hh Hw Htarget. split.
    + intros e. unfold Board.init. specialize (Hnr Hh Hw).
      destruct (Board.place_mines draws h w target ∅ (Board.empty_field h w))
        as [[ms b]|e'|] eqn:E; simpl; [done| |done].
      by destruct (Hnr e').
    + destruct (Placement.place_mines_fills h w target (Z.to_nat target)
                  Hh Hw ltac:(lia) 0 ∅ (Board.empty_field h w))
        as (ms & b & Hrun); [lia|lia| |by rewrite size_empty|set_solver|].
      { apply Placement.empty_field_agree. }
      exists (Placement.row_major_draws w 0 (Z.to_nat target)), (Board.mk h w ms b ∅).
      unfold Board.init. by rewrite Hrun.
  - intros g Hg. pose proof (BoardInv.init_wf _ _ _ _ _ Hg) as Hwf.
    unfold Board.init in Hg.
    destruct (Board.place_mines draws h w target ∅ (Board.empty_field h w))
      as [[ms b]|e|] eqn:E; simpl in Hg; try discriminate.
    injection Hg as <-. simpl.
    destruct (Hok _ _ eq_refl) as [Hsz Hin].
    split; [done|]. split; [done|]. split; [done|].
    destruct (decide (target = 0)) as [|Hne]; [by left|right].
    assert (Hpos : (0 < size ms)%nat) by lia.
    apply size_pos_elem_of in Hpos as [c Hc].
    destruct (Hin c Hc) as [Hi Hj].
    pose proof (Placement.in_grid_size h w ms ltac:(lia) ltac:(lia) Hin) as Hcap.
    repeat split; lia.
Qed.

Lemma init_outcomes_witness :
  Board.init 2 3 7 [0; 0; 1; 2; 0; 0] = Py.More
  ∧ Board.init 0 3 1 [0; 0] = Py.Raise Py.ValueError
  ∧ (∃ draws' g, Board.init 2 3 4 draws' = Py.Ok g)
  ∧ (∀ g, Board.init 1 2 1 [0; 3] = Py.Ok g →
       Z.of_nat (size (Board.mines g)) = 1).
Proof.
  split; [|split; [|split]].
  - apply (init_outcomes 2 3 7 [0; 0; 1; 2; 0; 0]); lia.
  - apply (init_outcomes 0 3 1 [0; 0]); lia.
  - apply (init_outcomes 2 3 4 []); lia.
  - intros g Hg. by apply (init_outcomes 1 2 1 [0; 3]) in Hg as [? _].
Defined.

(** * Properties of the knowledge base *)

(** C8: a second [MinesweeperAI.mark_safe] (respectively [mark_mine]) with
    the same cell changes nothing: the whole state, with the sets of safes
    and mines and the cells and count of every sentence, is the one left by
    the first call. *)
Theorem mark_twice_same_state (st : AI.MinesweeperAI) (c : cell) :
  AI.mark_safe (AI.mark_safe st c) c = AI.mark_safe st c
  ∧ AI.mark_mine (AI.mark_mine st c) c = AI.mark_mine st c.
Proof.
  split.
  - unfold AI.mark_safe. simpl. f_equal.
    + set_solver.
    + rewrite <- list_fmap_compose. apply list_fmap_ext.
      intros i s _. simpl. apply mark_safe_twice.
  - unfold AI.mark_mine. simpl. f_equal.
    + set_solver.
    + rewrite <- list_fmap_compose. apply list_fmap_ext.
      intros i s _. simpl. apply mark_mine_twice.
Qed.

(** The scenario of a 3x3 board with its only mine at (2,2): the probe of
    (0,0) reports 0, marks the three neighbours safe and keeps no
    sentence; after (1,1), (0,2) and (2,0) the mine is found without being
    probed. *)
Example corner_probe :
  Scenario.play 3 (AI.init 3 3) [((0, 0), 0)]
  = Py.Ok (AI.mk 3 3 {[(0, 0)]} ∅ {[(0, 0); (0, 1); (1, 0); (1, 1)]} []).
Proof. vm_compute. reflexivity. Qed.

Example mine_found_unprobed :
  Scenario.play 6 (AI.init 3 3) [((0, 0), 0); ((1, 1), 1); ((0, 2), 0); ((2, 0), 0)]
  = Py.Ok (AI.mk 3 3 {[(0, 0); (1, 1); (0, 2); (2, 0)]} {[(2, 2)]}
             {[(0, 0); (0, 1); (0, 2); (1, 0); (1, 1); (1, 2); (2, 0); (2, 1)]} []).
Proof. vm_compute. reflexivity. Qed.

(** C1 at its failing input: on the one-row board with a mine at (0,1),
    after the probe of (0,0) has made (0,1) a known mine, the probe of
    (0,2) reports 1 and the sentence appended for it is [{(0,3)} = 1], with
    the reported count, where the adjusted count is 0. *)
Theorem add_sentence_uses_reported_count :
  Scenario.board_valid Scenario.row_board ((0, 0), 1)
  ∧ Scenario.board_valid Scenario.row_board ((0, 2), 1)
  ∧ AI.add_knowledge 3 (AI.init 1 4) (0, 0) 1 = Py.Ok Scenario.after_first
  ∧ AI.knowledge (AI.add_sentence Scenario.after_first (0, 2) 1)
    = [mkSentence {[(0, 3)]} 1]
  ∧ Spec.adjusted_count Scenario.after_first (0, 2) 1 = 0.
Proof. vm_compute. repeat split; reflexivity. Qed.

(** C4 at its failing input: three probes the board allows, (0,0) with 1,
    (0,2) with 1 and (0,3) with 0, leave (0,3) both in [safes] and in
    [mines]. *)
Theorem safes_meet_mines :
  Forall (Scenario.board_valid Scenario.row_board)
         [((0, 0), 1); ((0, 2), 1); ((0, 3), 0)]
  ∧ ∃ st,
      Scenario.play 3 (AI.init 1 4) [((0, 0), 1); ((0, 2), 1); ((0, 3), 0)]
      = Py.Ok st
      ∧ (0, 3) ∈ AI.safes st ∩ AI.mines st.
Proof.
  split.
  - repeat constructor.
  - eexists. split; [vm_compute; reflexivity|].
    apply elem_of_intersection. split; set_solver.
Qed.

(** ** Termination of add_knowledge *)

#[global] Instance Sentence_countable : Countable Sentence.
Proof.
  apply (inj_countable' (λ s, (cells s, count s)) (λ p, mkSentence p.1 p.2)).
  by intros [].
Defined.

Module KB.

(** The cells still mentioned by some sentence. *)
Definition universe (kb : list Sentence) : gset cell := ⋃ (cells <$> kb).

Definition nonempty (s : Sentence) : Prop := cells s ≠ ∅.

#[global] Instance nonempty_dec s : Decision (nonempty s).
Proof. unfold nonempty. apply _. Defined.

Lemma elem_of_universe kb c : c ∈ universe kb ↔ ∃ s, s ∈ kb ∧ c ∈ cells s.
Proof.
  unfold universe. rewrite elem_of_union_list. split.
  - intros (X & HX & Hc). apply list_elem_of_fmap in HX as (s & -> & Hs). eauto.
  - intros (s & Hs & Hc). exists (cells s). split; [|done].
    by apply list_elem_of_fmap_2.
Qed.

Lemma universe_app kb1 kb2 : universe (kb1 ++ kb2) = universe kb1 ∪ universe kb2.
Proof.
  apply set_eq. intros c. rewrite elem_of_union, !elem_of_universe.
  setoid_rewrite elem_of_app. naive_solver.
Qed.

Lemma universe_cons s kb : universe (s :: kb) = cells s ∪ universe kb.
Proof. done. Qed.

Lemma cells_subseteq_universe kb s : s ∈ kb → cells s ⊆ universe kb.
Proof. intros Hs c Hc. apply elem_of_universe. eauto. Qed.

Lemma size_zero_empty (X : gset cell) : size X = 0%nat ↔ X = ∅.
Proof. rewrite size_empty_iff. by unfold_leibniz. Qed.

End KB.

Section Removal.

Lemma list_remove_split (x : Sentence) l l' :
  Py.list_remove x l = Some l' → ∃ l1 l2, l = l1 ++ x :: l2 ∧ l' = l1 ++ l2.
Proof.
  revert l'. induction l as [|y l IH]; intros l'; simpl; [done|].
  case_decide as Hxy.
  - intros [= <-]. subst y. by exists [], l.
  - destruct (Py.list_remove x l) as [l0|]; simpl; [|done].
    intros [= <-]. destruct (IH l0 eq_refl) as (l1 & l2 & -> & ->).
    by exists (y :: l1), l2.
Qed.

Lemma list_remove_elem_of (x : Sentence) l :
  x ∈ l → is_Some (Py.list_remove x l).
Proof.
  induction l as [|y l IH]; [by intros ?%elem_of_nil|].
  intros Hx. simpl. case_decide; [by eexists|].
  apply elem_of_cons in Hx as [?|Hx]; [done|].
  destruct (IH Hx) as [l' ->]. by eexists.
Qed.

End Removal.

Section Marking.

(** Python iterates over the returned set in an order of its own; the
    state reached does not depend on it. *)
Lemma sent_mark_safe_comm s a b :
  Sent.mark_safe (Sent.mark_safe s a) b = Sent.mark_safe (Sent.mark_safe s b) a.
Proof.
  destruct (decide (a = b)) as [->|Hne]; [done|].
  unfold Sent.mark_safe. repeat case_decide; simpl in *;
    try (exfalso; set_solver); try done; f_equal; set_solver.
Qed.

Lemma sent_mark_mine_comm s a b :
  Sent.mark_mine (Sent.mark_mine s a) b = Sent.mark_mine (Sent.mark_mine s b) a.
Proof.
  destruct (decide (a = b)) as [->|Hne]; [done|].
  unfold Sent.mark_mine. repeat case_decide; simpl in *;
    try (exfalso; set_solver); try done; f_equal; set_solver.
Qed.

Lemma mark_safe_comm st a b :
  AI.mark_safe (AI.mark_safe st a) b = AI.mark_safe (AI.mark_safe st b) a.
Proof.
  unfold AI.mark_safe. simpl. f_equal; [set_solver|].
  rewrite <- !list_fmap_compose. apply list_fmap_ext.
  intros i s _. simpl. apply sent_mark_safe_comm.
Qed.

Lemma mark_mine_comm st a b :
  AI.mark_mine (AI.mark_mine st a) b = AI.mark_mine (AI.mark_mine st b) a.
Proof.
  unfold AI.mark_mine. simpl. f_equal; [set_solver|].
  rewrite <- !list_fmap_compose. apply list_fmap_ext.
  intros i s _. simpl. apply sent_mark_mine_comm.
Qed.

Lemma mark_safe_any_order st l1 l2 :
  l1 ≡ₚ l2 → foldl AI.mark_safe st l1 = foldl AI.mark_safe st l2.
Proof.
  intros Hp. revert st. induction Hp as [|x l1 l2 _ IH|x y l|l1 l2 l3 _ IH1 _ IH2];
    intros st; simpl; [done|apply IH|by rewrite mark_safe_comm|].
  by rewrite IH1.
Qed.

Lemma mark_mine_any_order st l1 l2 :
  l1 ≡ₚ l2 → foldl AI.mark_mine st l1 = foldl AI.mark_mine st l2.
Proof.
  intros Hp. revert st. induction Hp as [|x l1 l2 _ IH|x y l|l1 l2 l3 _ IH1 _ IH2];
    intros st; simpl; [done|apply IH|by rewrite mark_mine_comm|].
  by rewrite IH1.
Qed.

Lemma mark_safe_all_fields st l :
  AI.height (foldl AI.mark_safe st l) = AI.height st
  ∧ AI.width (foldl AI.mark_safe st l) = AI.width st
  ∧ AI.moves_made (foldl AI.mark_safe st l) = AI.moves_made st
  ∧ AI.mines (foldl AI.mark_safe st l) = AI.mines st
  ∧ AI.safes (foldl AI.mark_safe st l) = AI.safes st ∪ list_to_set l.
Proof.
  revert st. induction l as [|c l IH]; intros st; simpl.
  - repeat split; try done. set_solver.
  - destruct (IH (AI.mark_safe st c)) as (-> & -> & -> & -> & ->). simpl.
    repeat split; try done. set_solver.
Qed.

Lemma mark_mine_all_fields st l :
  AI.height (foldl AI.mark_mine st l) = AI.height st
  ∧ AI.width (foldl AI.mark_mine st l) = AI.width st
  ∧ AI.moves_made (foldl AI.mark_mine st l) = AI.moves_made st
  ∧ AI.mines (foldl AI.mark_mine st l) = AI.mines st ∪ list_to_set l
  ∧ AI.safes (foldl AI.mark_mine st l) = AI.safes st.
Proof.
  revert st. induction l as [|c l IH]; intros st; simpl.
  - repeat split; try done. set_solver.
  - destruct (IH (AI.mark_mine st c)) as (-> & -> & -> & -> & ->). simpl.
    repeat split; try done. set_solver.
Qed.

Lemma mark_safe_all_cells st l :
  cells <$> AI.knowledge (foldl AI.mark_safe st l)
  = (λ s, cells s ∖ list_to_set l) <$> AI.knowledge st.
Proof.
  revert st. induction l as [|c l IH]; intros st; simpl.
  - apply list_fmap_ext. intros i s _. set_solver.
  - rewrite IH. simpl. rewrite <- list_fmap_compose.
    apply list_fmap_ext. intros i s _. simpl. rewrite mark_safe_cells. set_solver.
Qed.

Lemma mark_mine_all_cells st l :
  cells <$> AI.knowledge (foldl AI.mark_mine st l)
  = (λ s, cells s ∖ list_to_set l) <$> AI.knowledge st.
Proof.
  revert st. induction l as [|c l IH]; intros st; simpl.
  - apply list_fmap_ext. intros i s _. set_solver.
  - rewrite IH. simpl. rewrite <- list_fmap_compose.
    apply list_fmap_ext. intros i s _. simpl. rewrite mark_mine_cells. set_solver.
Qed.

Lemma mark_safe_all_counts st l :
  count <$> AI.knowledge (foldl AI.mark_safe st l) = count <$> AI.knowledge st.
Proof.
  revert st. induction l as [|c l IH]; intros st; simpl; [done|].
  rewrite IH. simpl. rewrite <- list_fmap_compose.
  apply list_fmap_ext. intros i s _. simpl. apply mark_safe_count.
Qed.

End Marking.

Module Resolve.

(** The sentences that still have cells. *)
Definition live (kb : list Sentence) : list Sentence := filter KB.nonempty kb.

Lemma universe_live kb : KB.universe (live kb) = KB.universe kb.
Proof.
  apply set_eq. intros c. rewrite !KB.elem_of_universe. unfold live. split.
  - intros (s & Hs & Hc). apply list_elem_of_filter in Hs as [_ Hs]. eauto.
  - intros (s & Hs & Hc). exists s. split; [|done].
    apply list_elem_of_filter. split; [|done]. unfold KB.nonempty. set_solver.
Qed.

(** What one resolution pass can do to the knowledge base: nothing; retire
    empty sentences only; or make the universe of unknown cells smaller. *)
Definition resolved (kb : list Sentence) (cyc : Z) (kb' : list Sentence) (cyc' : Z)
    : Prop :=
  (length kb' ≤ length kb)%nat
  ∧ KB.universe kb' ⊆ KB.universe kb
  ∧ (cyc' = cyc ∨ cyc' = 2)
  ∧ ((kb' = kb ∧ cyc' = cyc)
     ∨ (live kb' = live kb ∧ (length kb' < length kb)%nat ∧ cyc' = 2)
     ∨ KB.universe kb' ⊂ KB.universe kb).

Lemma resolved_refl kb cyc : resolved kb cyc kb cyc.
Proof.
  unfold resolved. split; [done|]. split; [done|]. split; [by left|]. by left.
Qed.

Lemma resolved_trans kb1 c1 kb2 c2 kb3 c3 :
  c2 = 2 ∨ (kb2 = kb1 ∧ c2 = c1) →
  resolved kb1 c1 kb2 c2 → resolved kb2 c2 kb3 c3 → resolved kb1 c1 kb3 c3.
Proof.
  intros Hc (Hl1 & Hu1 & Hc1 & H1) (Hl2 & Hu2 & Hc2 & H2).
  split; [lia|]. split; [set_solver|].
  split; [destruct Hc as [Hc|[_ Hc]]; destruct Hc2 as [Hc2|Hc2]; subst; auto|].
  destruct H2 as [[-> ->]|[(Hlive2 & Hlt2 & ->)|Hs2]]; [done| |].
  - destruct H1 as [[-> ->]|[(Hlive1 & Hlt1 & _)|Hs1]].
    + right. left. done.
    + right. left. split; [congruence|]. split; [lia|done].
    + right. right. rewrite <- (universe_live kb3), Hlive2, universe_live. done.
  - right. right. set_solver.
Qed.

Lemma universe_remove l1 (s : Sentence) l2 :
  KB.universe (l1 ++ l2) ⊆ KB.universe (l1 ++ s :: l2).
Proof.
  rewrite !KB.universe_app, KB.universe_cons. set_solver.
Qed.

Lemma live_remove l1 (s : Sentence) l2 :
  cells s = ∅ → live (l1 ++ l2) = live (l1 ++ s :: l2).
Proof.
  intros Hs. unfold live. rewrite !filter_app, filter_cons_False; [done|].
  unfold KB.nonempty. by intros [].
Qed.

(** Marking all cells of the sentence at [idx], then removing it. *)
Lemma retire_after_mark st st1 idx s :
  AI.knowledge st !! idx = Some s →
  cells <$> AI.knowledge st1 = (λ s', cells s' ∖ cells s) <$> AI.knowledge st →
  (cells s = ∅ → st1 = st) →
  ∃ st2, AI.remove_at st1 idx = Py.Ok st2
         ∧ resolved (AI.knowledge st) 2 (AI.knowledge st2) 2
         ∧ (length (AI.knowledge st2) < length (AI.knowledge st))%nat.
Proof.
  intros Hidx Hcells Hempty.
  assert (Hlen : length (AI.knowledge st1) = length (AI.knowledge st)).
  { apply (f_equal length) in Hcells. by rewrite !length_fmap in Hcells. }
  destruct (lookup_lt_is_Some_2 (AI.knowledge st1) idx) as [s1 Hs1].
  { rewrite Hlen. by eapply lookup_lt_Some. }
  destruct (list_remove_elem_of s1 (AI.knowledge st1)) as [kb2 Hrm].
  { by eapply list_elem_of_lookup_2. }
  exists (AI.set_knowledge st1 kb2). unfold AI.remove_at. rewrite Hs1, Hrm.
  split; [done|]. simpl.
  apply list_remove_split in Hrm as (l1 & l2 & Hkb1 & ->).
  assert (Hlen2 : S (length (l1 ++ l2)) = length (AI.knowledge st)).
  { rewrite <- Hlen, Hkb1, !length_app. simpl. lia. }
  assert (Hu1 : KB.universe (AI.knowledge st1) = KB.universe (AI.knowledge st) ∖ cells s).
  { unfold KB.universe at 1. rewrite Hcells.
    apply set_eq. intros c. rewrite elem_of_union_list, elem_of_difference,
      KB.elem_of_universe. split.
    - intros (X & HX & Hc). apply list_elem_of_fmap in HX as (s' & -> & Hs').
      set_solver.
    - intros [(s' & Hs' & Hc) Hn]. exists (cells s' ∖ cells s). split; [|set_solver].
      apply list_elem_of_fmap. eauto. }
  assert (Hu2 : KB.universe (l1 ++ l2) ⊆ KB.universe (AI.knowledge st1)).
  { rewrite Hkb1. apply universe_remove. }
  split; [|lia].
  split; [lia|]. split; [set_solver|]. split; [by left|].
  destruct (decide (cells s = ∅)) as [Hs|Hs].
  - right. left. specialize (Hempty Hs). subst st1.
    assert (s1 = s) as -> by congruence.
    rewrite Hkb1. split; [by apply live_remove|]. split; [|done].
    rewrite !length_app. simpl. lia.
  - right. right.
    apply list_elem_of_lookup_2 in Hidx as Hin.
    pose proof (KB.cells_subseteq_universe _ _ Hin) as Hsub.
    assert (∃ c, c ∈ cells s) as [c Hc].
    { apply set_choose_L. done. }
    split; [set_solver|]. intros Hback.
    assert (c ∈ KB.universe (l1 ++ l2)) as Hc' by set_solver.
    apply Hu2 in Hc'. rewrite Hu1 in Hc'. set_solver.
Qed.

Lemma resolve_loop_terminates (k : nat) :
  ∀ st idx cyc, (length (AI.knowledge st) - idx ≤ k)%nat →
  ∃ st' cyc',
    (∀ fuel, (k < fuel)%nat → AI.resolve_loop fuel idx st cyc = Py.Ok (st', cyc'))
    ∧ resolved (AI.knowledge st) cyc (AI.knowledge st') cyc'.
Proof.
  induction k as [|k IH]; intros st idx cyc Hk.
  - exists st, cyc. split; [|apply resolved_refl].
    intros [|fuel] Hf; [lia|]. simpl. by rewrite lookup_ge_None_2 by lia.
  - destruct (AI.knowledge st !! idx) as [s|] eqn:Hidx.
    2:{ exists st, cyc. split; [|apply resolved_refl].
        intros [|fuel] Hf; [lia|]. simpl. by rewrite Hidx. }
    assert (Hlt : (idx < length (AI.knowledge st))%nat) by by eapply lookup_lt_Some.
    assert (Hretire : ∀ st1,
      cells <$> AI.knowledge st1 = (λ s', cells s' ∖ cells s) <$> AI.knowledge st →
      (cells s = ∅ → st1 = st) →
      ∃ st' cyc',
        (∀ fuel, (k < fuel)%nat →
           (st2 ← AI.remove_at st1 idx; AI.resolve_loop fuel (S idx) st2 2)
           = Py.Ok (st', cyc'))
        ∧ resolved (AI.knowledge st) cyc (AI.knowledge st') cyc').
    { intros st1 Hcells Hempty.
      destruct (retire_after_mark st st1 idx s Hidx Hcells Hempty)
        as (st2 & -> & Hres & Hlen).
      destruct (IH st2 (S idx) 2) as (st' & cyc' & Hrun & Hres'); [lia|].
      exists st', cyc'. split; [exact Hrun|].
      apply (resolved_trans (AI.knowledge st) cyc (AI.knowledge st2) 2
               (AI.knowledge st') cyc' (or_introl eq_refl)); [|done].
      destruct Hres as (Hl & Hu & _ & [[Heq _]|[(Hlive & Hlt' & _)|Hs]]).
      - rewrite Heq in Hlen. lia.
      - split; [lia|]. split; [done|]. split; [by right|]. right. by left.
      - split; [lia|]. split; [done|]. split; [by right|]. by right; right. }
    destruct (decide (count s = 0)) as [Hz|Hnz].
    { destruct (Hretire (AI.mark_safe_all st (cells s))) as (st' & cyc' & Hrun & Hres).
      - unfold AI.mark_safe_all. rewrite mark_safe_all_cells.
        by rewrite list_to_set_elements_L.
      - intros ->. unfold AI.mark_safe_all. by rewrite elements_empty.
      - exists st', cyc'. split; [|done].
        intros [|fuel] Hf; [lia|]. simpl. rewrite Hidx.
        unfold Sent.known_safes. rewrite decide_True by done.
        apply Hrun. lia. }
    destruct (decide (Z.of_nat (size (cells s)) <= count s)) as [Hmn|Hnm].
    { destruct (Hretire (AI.mark_mine_all st (cells s))) as (st' & cyc' & Hrun & Hres).
      - unfold AI.mark_mine_all. rewrite mark_mine_all_cells.
        by rewrite list_to_set_elements_L.
      - intros ->. unfold AI.mark_mine_all. by rewrite elements_empty.
      - exists st', cyc'. split; [|done].
        intros [|fuel] Hf; [lia|]. simpl. rewrite Hidx.
        unfold Sent.known_safes, Sent.known_mines.
        rewrite decide_False by done. rewrite decide_True by done.
        apply Hrun. lia. }
    destruct (IH st (S idx) cyc) as (st' & cyc' & Hrun & Hres); [lia|].
    exists st', cyc'. split; [|done].
    intros [|fuel] Hf; [lia|]. simpl. rewrite Hidx.
    unfold Sent.known_safes, Sent.known_mines.
    rewrite !decide_False by done. apply Hrun. lia.
Qed.

End Resolve.

Module Infer.

(** [d] is derived from a pair of sentences of [kb], the smaller one with
    cells. *)
Definition derived (kb : list Sentence) (d : Sentence) : Prop :=
  ∃ big small,
    big ∈ kb ∧ small ∈ kb ∧ cells small ≠ ∅ ∧ cells small ⊆ cells big
    ∧ cells d ≠ ∅ ∧ d = Derive.difference big small ∧ 0 < count d.

Lemma difference_empty_subseteq (X Y : gset cell) : size (X ∖ Y) = 0%nat ↔ X ⊆ Y.
Proof.
  rewrite KB.size_zero_empty. split.
  - intros Hempty x Hx. destruct (decide (x ∈ Y)) as [|Hn]; [done|].
    assert (Hin : x ∈ X ∖ Y) by (apply elem_of_difference; done).
    rewrite Hempty in Hin. by apply not_elem_of_empty in Hin.
  - intros Hsub. apply set_eq. intros x.
    rewrite elem_of_difference, elem_of_empty. naive_solver.
Qed.

Lemma add_inferred_cases kb cyc cs n :
  (AI.add_inferred kb cyc cs n = (kb, cyc) ∧ Sent.init cs n ∈ kb)
  ∨ (AI.add_inferred kb cyc cs n = (kb ++ [Sent.init cs n], 2)
     ∧ Sent.init cs n ∉ kb).
Proof.
  unfold AI.add_inferred. cbv zeta.
  destruct (decide (Sent.init cs n ∈ kb)) as [Hin|Hout].
  - left. rewrite decide_False by (intros Hn; by apply Hn). done.
  - right. by rewrite decide_True.
Qed.

(** The body of the inner loop either leaves the list alone or appends one
    derived sentence that was not there. *)
Lemma infer_pair_cases kb cyc sA sB :
  sA ∈ kb → sB ∈ kb →
  AI.infer_pair kb cyc sA sB = (kb, cyc)
  ∨ ∃ d, AI.infer_pair kb cyc sA sB = (kb ++ [d], 2) ∧ (d ∉ kb) ∧ derived kb d.
Proof.
  intros HA HB. unfold AI.infer_pair. cbv zeta.
  destruct (decide (sA = sB)) as [|Hne]; [by left|].
  destruct (decide (size (cells sA) = 0%nat ∨ size (cells sB) = 0%nat)) as [|Hsz];
    [by left|].
  assert (HneA : cells sA ≠ ∅) by (rewrite <- KB.size_zero_empty; tauto).
  assert (HneB : cells sB ≠ ∅) by (rewrite <- KB.size_zero_empty; tauto).
  destruct (decide (size (cells sB ∖ cells sA) = 0%nat)) as [HBA|HBA];
    destruct (decide (size (cells sA ∖ cells sB) = 0%nat)) as [HAB|HAB].
  - rewrite (decide_False (P := size (cells sA ∖ cells sB) ≠ 0%nat)) by tauto.
    rewrite (decide_False (P := size (cells sB ∖ cells sA) ≠ 0%nat)) by tauto.
    by left.
  - rewrite (decide_True (P := size (cells sA ∖ cells sB) ≠ 0%nat)) by done.
    destruct (decide (count sA - count sB > 0)) as [Hpos|]; [|by left].
    destruct (add_inferred_cases kb cyc (cells sA ∖ cells sB) (count sA - count sB))
      as [[-> _]|[-> Hnew]]; [by left|right].
    eexists. split; [done|]. split; [done|].
    exists sA, sB. repeat split; try done.
    + by apply difference_empty_subseteq.
    + simpl. by rewrite <- KB.size_zero_empty.
    + simpl. lia.
  - rewrite (decide_True (P := size (cells sB ∖ cells sA) ≠ 0%nat)) by done.
    destruct (decide (count sB - count sA > 0)) as [Hpos|]; [|by left].
    destruct (add_inferred_cases kb cyc (cells sB ∖ cells sA) (count sB - count sA))
      as [[-> _]|[-> Hnew]]; [by left|right].
    eexists. split; [done|]. split; [done|].
    exists sB, sA. repeat split; try done.
    + by apply difference_empty_subseteq.
    + simpl. by rewrite <- KB.size_zero_empty.
    + simpl. lia.
  - by left.
Qed.

(** *** Bounds kept by inference *)

Section Bounds.

Context (U0 : gset cell) (m H : Z) (Hm : 0 <= m).

(** Every sentence with cells speaks about cells of [U0], its count is at
    least [-m], and its count plus [m] per cell is at most [H]. *)
Definition bounded (kb : list Sentence) : Prop :=
  ∀ s, s ∈ kb → cells s ≠ ∅ →
    cells s ⊆ U0 ∧ - m <= count s
    ∧ count s + Z.of_nat (size (cells s)) * m <= H.

Lemma bounded_derived kb d : bounded kb → derived kb d → bounded (kb ++ [d]).
Proof.
  intros Hkb (big & small & Hbig & Hsmall & Hne & Hsub & Hd & -> & Hpos) s Hs Hs'.
  apply elem_of_app in Hs as [Hs|Hs]; [by apply Hkb|].
  apply list_elem_of_singleton in Hs as ->.
  assert (Hbig' : cells big ≠ ∅) by set_solver.
  destruct (Hkb _ Hbig Hbig') as (Hb1 & Hb2 & Hb3).
  destruct (Hkb _ Hsmall Hne) as (Hs1 & Hs2 & Hs3).
  simpl in *.
  assert (Hsz : Z.of_nat (size (cells big ∖ cells small))
                = Z.of_nat (size (cells big)) - Z.of_nat (size (cells small))).
  { rewrite size_difference by done.
    apply subseteq_size in Hsub. lia. }
  assert (Hsmall1 : 1 <= Z.of_nat (size (cells small))).
  { destruct (size (cells small)) eqn:E; [|lia].
    apply KB.size_zero_empty in E. done. }
  split; [set_solver|]. split; [lia|]. rewrite Hsz. nia.
Qed.

(** The finitely many sentences within the bounds. *)
Fixpoint subsets (l : list cell) : list (gset cell) :=
  match l with
  | [] => [∅]
  | c :: l' => subsets l' ++ ((λ X, {[c]} ∪ X) <$> subsets l')
  end.

Lemma elem_of_subsets (l : list cell) (X : gset cell) : X ⊆ list_to_set l → X ∈ subsets l.
Proof.
  revert X. induction l as [|c l IH]; intros X HX; simpl.
  - apply list_elem_of_singleton. set_solver.
  - apply elem_of_app. destruct (decide (c ∈ X)) as [Hc|Hc].
    + right. apply list_elem_of_fmap. exists (X ∖ {[c]}). split.
      * apply set_eq. intros x. destruct (decide (x = c)); set_solver.
      * apply IH. set_solver.
    + left. apply IH. set_solver.
Qed.

Definition allowed : gset Sentence :=
  list_to_set (cs ← subsets (elements U0);
               n ← seqZ (- m) (H + m + 1);
               [mkSentence cs n]).

Lemma elem_of_allowed s :
  cells s ⊆ U0 → - m <= count s <= H → s ∈ allowed.
Proof.
  intros Hc Hn. unfold allowed. apply elem_of_list_to_set.
  apply list_elem_of_bind. exists (cells s). split.
  - apply list_elem_of_bind. exists (count s). split.
    + destruct s. simpl. apply list_elem_of_singleton. done.
    + apply elem_of_seqZ. lia.
  - apply elem_of_subsets. by rewrite list_to_set_elements_L.
Qed.

Lemma bounded_allowed kb s : bounded kb → s ∈ kb → cells s ≠ ∅ → s ∈ allowed.
Proof.
  intros Hkb Hs Hne. destruct (Hkb s Hs Hne) as (H1 & H2 & H3).
  apply elem_of_allowed; [done|]. nia.
Qed.

(** The sentences within the bounds that the list does not hold yet. *)
Definition slack (kb : list Sentence) : nat :=
  size (allowed ∖ list_to_set (Resolve.live kb)).

Lemma slack_append kb d :
  bounded (kb ++ [d]) → d ∉ kb → cells d ≠ ∅ →
  (slack (kb ++ [d]) < slack kb)%nat.
Proof.
  intros Hb Hnew Hne. unfold slack. apply subset_size.
  unfold Resolve.live. rewrite filter_app, filter_cons_True, filter_nil by done.
  rewrite list_to_set_app_L.
  assert (Hd : d ∈ allowed).
  { apply (bounded_allowed (kb ++ [d])); [done| |done].
    apply elem_of_app. right. by apply list_elem_of_singleton. }
  assert (Hd' : d ∉ (list_to_set (filter KB.nonempty kb) : gset Sentence)).
  { rewrite elem_of_list_to_set, list_elem_of_filter. tauto. }
  split.
  - set_solver.
  - intros Hback. assert (d ∈ allowed ∖ list_to_set (filter KB.nonempty kb)) as Hin
      by set_solver.
    apply Hback in Hin. set_solver.
Qed.

(** What an inference loop can do: nothing, or append sentences, each
    append using up slack. *)
Definition grown (kb : list Sentence) (cyc : Z) (kb' : list Sentence) (cyc' : Z)
    : Prop :=
  bounded kb' ∧ kb `prefix_of` kb'
  ∧ ((kb' = kb ∧ cyc' = cyc)
     ∨ ((slack kb' < slack kb)%nat
        ∧ (slack kb' + length kb' ≤ slack kb + length kb)%nat
        ∧ cyc' = 2)).

Lemma grown_refl kb cyc : bounded kb → grown kb cyc kb cyc.
Proof. intros Hb. split; [done|]. split; [done|]. by left. Qed.

Lemma grown_append kb cyc d kb' cyc' :
  bounded kb → d ∉ kb → derived kb d →
  grown (kb ++ [d]) 2 kb' cyc' → grown kb cyc kb' cyc'.
Proof.
  intros Hb Hnew Hd (Hb' & Hpre & Hch).
  pose proof (bounded_derived kb d Hb Hd) as Hbd.
  assert (Hne : cells d ≠ ∅) by (destruct Hd as (? & ? & ?); tauto).
  pose proof (slack_append kb d Hbd Hnew Hne) as Hsl.
  split; [done|]. split; [by eapply prefix_app_l|]. right.
  destruct Hch as [[-> ->]|(Hlt & Hle & ->)].
  - rewrite length_app. simpl. repeat split; [done|lia].
  - rewrite length_app in Hle. simpl in Hle. repeat split; lia.
Qed.

End Bounds.

End Infer.

Module Termination.

(** [run fuel] returns [a] for every large enough step budget. *)
Definition eventually {A} (run : nat → Py.result A) (a : A) : Prop :=
  ∃ f0 : nat, ∀ fuel, (f0 ≤ fuel)%nat → run fuel = Py.Ok a.

Section Inference.

Context (U0 : gset cell) (m H : Z) (Hm : 0 <= m).

Local Abbreviation bounded := (Infer.bounded U0 m H).
Local Abbreviation slack := (Infer.slack U0 m H).
Local Abbreviation grown := (Infer.grown U0 m H).

Lemma grown_trans kb1 c1 kb2 c2 kb3 c3 :
  grown kb1 c1 kb2 c2 → grown kb2 c2 kb3 c3 → grown kb1 c1 kb3 c3.
Proof.
  intros (Hb2 & Hp2 & H2) (Hb3 & Hp3 & H3).
  split; [done|]. split; [by etrans|].
  destruct H2 as [[-> ->]|(Hlt2 & Hle2 & ->)]; [done|].
  right. destruct H3 as [[-> ->]|(Hlt3 & Hle3 & ->)]; [done|].
  repeat split; lia.
Qed.

Lemma infer_inner_terminates (n : nat) :
  ∀ (k : nat) kb sA b cyc,
    (slack kb ≤ n)%nat → (length kb - b ≤ k)%nat → bounded kb → sA ∈ kb →
    ∃ kb' cyc',
      eventually (λ fuel, AI.infer_inner fuel sA b kb cyc) (kb', cyc')
      ∧ grown kb cyc kb' cyc'.
Proof.
  induction n as [n IHn] using lt_wf_ind.
  induction k as [|k IHk]; intros kb sA b cyc Hn Hk Hb HA.
  - exists kb, cyc. split; [|by apply Infer.grown_refl].
    exists 1%nat. intros [|fuel] Hf; [lia|]. simpl.
    by rewrite lookup_ge_None_2 by lia.
  - destruct (kb !! b) as [sB|] eqn:HB.
    2:{ exists kb, cyc. split; [|by apply Infer.grown_refl].
        exists 1%nat. intros [|fuel] Hf; [lia|]. simpl. by rewrite HB. }
    assert (HBin : sB ∈ kb) by by eapply list_elem_of_lookup_2.
    assert (Hlt : (b < length kb)%nat) by by eapply lookup_lt_Some.
    destruct (Infer.infer_pair_cases kb cyc sA sB HA HBin)
      as [Hsame|(d & Happ & Hnew & Hd)].
    + destruct (IHk kb sA (S b) cyc) as (kb' & cyc' & [f0 Hrun] & Hg);
        [done|lia|done|done|].
      exists kb', cyc'. split; [|done].
      exists (S f0). intros [|fuel] Hf; [lia|]. simpl. rewrite HB, Hsame.
      apply Hrun. lia.
    + pose proof (Infer.bounded_derived U0 m H Hm kb d Hb Hd) as Hbd.
      assert (Hne : cells d ≠ ∅) by (destruct Hd as (? & ? & ?); tauto).
      pose proof (Infer.slack_append U0 m H Hm kb d Hbd Hnew Hne) as Hsl.
      destruct (IHn (slack (kb ++ [d])) ltac:(lia)
                  (length (kb ++ [d]) - S b)%nat (kb ++ [d]) sA (S b) 2)
        as (kb' & cyc' & [f0 Hrun] & Hg); [done|done|done| |].
      { apply elem_of_app. by left. }
      exists kb', cyc'. split; [|by eapply Infer.grown_append].
      exists (S f0). intros [|fuel] Hf; [lia|]. simpl. rewrite HB, Happ.
      apply Hrun. lia.
Qed.

Lemma infer_outer_terminates (n : nat) :
  ∀ (k : nat) kb a cyc,
    (slack kb ≤ n)%nat → (length kb - a ≤ k)%nat → bounded kb →
    ∃ kb' cyc',
      eventually (λ fuel, AI.infer_outer fuel a kb cyc) (kb', cyc')
      ∧ grown kb cyc kb' cyc'.
Proof.
  induction n as [n IHn] using lt_wf_ind.
  induction k as [|k IHk]; intros kb a cyc Hn Hk Hb.
  - exists kb, cyc. split; [|by apply Infer.grown_refl].
    exists 1%nat. intros [|fuel] Hf; [lia|]. simpl.
    by rewrite lookup_ge_None_2 by lia.
  - destruct (kb !! a) as [sA|] eqn:HA.
    2:{ exists kb, cyc. split; [|by apply Infer.grown_refl].
        exists 1%nat. intros [|fuel] Hf; [lia|]. simpl. by rewrite HA. }
    assert (HAin : sA ∈ kb) by by eapply list_elem_of_lookup_2.
    assert (Hlt : (a < length kb)%nat) by by eapply lookup_lt_Some.
    destruct (infer_inner_terminates (slack kb) (length kb) kb sA 0%nat cyc)
      as (kb1 & c1 & [f1 Hrun1] & Hg1); [done|lia|done|done|].
    assert (∃ kb' cyc',
      eventually (λ fuel, AI.infer_outer fuel (S a) kb1 c1) (kb', cyc')
      ∧ grown kb1 c1 kb' cyc') as (kb' & cyc' & [f2 Hrun2] & Hg2).
    { destruct Hg1 as (Hb1 & Hp1 & [[-> ->]|(Hlt1 & Hle1 & ->)]).
      - apply IHk; [done|lia|done].
      - apply (IHn (slack kb1) ltac:(lia) (length kb1 - S a)%nat); done. }
    exists kb', cyc'. split; [|by eapply grown_trans].
    exists (S (f1 `max` f2)). intros [|fuel] Hf; [lia|]. simpl. rewrite HA.
    rewrite Hrun1 by lia. simpl. apply Hrun2. lia.
Qed.

End Inference.

(** Bounds exist for every knowledge base. *)
Fixpoint max_abs_count (kb : list Sentence) : Z :=
  match kb with
  | [] => 0
  | s :: kb' => Z.max (Z.abs (count s)) (max_abs_count kb')
  end.

Lemma max_abs_count_spec kb :
  0 <= max_abs_count kb ∧ ∀ s, s ∈ kb → Z.abs (count s) <= max_abs_count kb.
Proof.
  induction kb as [|s0 kb [IH0 IH]]; simpl.
  - split; [done|]. by intros s ?%elem_of_nil.
  - split; [lia|]. intros s [->|Hs]%elem_of_cons; [lia|].
    specialize (IH s Hs). lia.
Qed.

Lemma exists_bounds kb :
  ∃ m H, 0 <= m ∧ Infer.bounded (KB.universe kb) m H kb.
Proof.
  destruct (max_abs_count_spec kb) as [Hm Hmax].
  exists (max_abs_count kb),
         (max_abs_count kb + Z.of_nat (size (KB.universe kb)) * max_abs_count kb).
  split; [done|]. intros s Hs _.
  pose proof (KB.cells_subseteq_universe kb s Hs) as Hsub.
  pose proof (subseteq_size _ _ Hsub) as Hsz.
  specialize (Hmax s Hs).
  split; [done|]. split; [lia|]. nia.
Qed.

Lemma bounded_universe U0 m H kb : Infer.bounded U0 m H kb → KB.universe kb ⊆ U0.
Proof.
  intros Hb c Hc. apply KB.elem_of_universe in Hc as (s & Hs & Hc).
  destruct (Hb s Hs) as [Hsub _]; [set_solver|]. by apply Hsub.
Qed.

Lemma bounded_live U0 m H kb kb' :
  Resolve.live kb' = Resolve.live kb →
  Infer.bounded U0 m H kb → Infer.bounded U0 m H kb'.
Proof.
  intros Hlive Hb s Hs Hne. apply Hb; [|done].
  assert (s ∈ Resolve.live kb') as Hin by (apply list_elem_of_filter; done).
  rewrite Hlive in Hin. by apply list_elem_of_filter in Hin as [_ ?].
Qed.

Lemma slack_live U0 m H kb kb' :
  Resolve.live kb' = Resolve.live kb →
  Infer.slack U0 m H kb' = Infer.slack U0 m H kb.
Proof. intros Hlive. unfold Infer.slack. by rewrite Hlive. Qed.

End Termination.

Module Loop.

Import Termination.

Lemma while_done st cyc :
  cyc <= 0 → eventually (λ fuel, AI.while_cycles fuel st cyc) st.
Proof.
  intros Hc. exists 1%nat. intros [|fuel] Hf; [lia|]. simpl.
  by rewrite decide_False by lia.
Qed.

(** One pass of the [while] loop, from the runs of its parts. *)
Lemma while_step st cyc st1 c1 kb2 c2 st' (f_res : nat) :
  cyc > 0 →
  (∀ fuel, (f_res < fuel)%nat → AI.resolve_loop fuel 0 st cyc = Py.Ok (st1, c1)) →
  eventually (λ fuel, AI.infer_outer fuel 0 (AI.knowledge st1) c1) (kb2, c2) →
  eventually (λ fuel, AI.while_cycles fuel (AI.set_knowledge st1 kb2) (c2 - 1)) st' →
  eventually (λ fuel, AI.while_cycles fuel st cyc) st'.
Proof.
  intros Hc Hres [f_inf Hinf] [f_next Hnext].
  exists (S (S f_res `max` (f_inf `max` f_next))).
  intros [|fuel] Hf; [lia|]. simpl. rewrite decide_True by done.
  rewrite Hres by lia. simpl. rewrite Hinf by lia. simpl. apply Hnext. lia.
Qed.

Section FixedUniverse.

Context (u : nat).
Context (IHu : ∀ st cyc,
  (size (KB.universe (AI.knowledge st)) < u)%nat → cyc <= 1 →
  ∃ st', eventually (λ fuel, AI.while_cycles fuel st cyc) st').
Context (U0 : gset cell) (m H : Z) (Hm : 0 <= m) (HU : (size U0 ≤ u)%nat).

Lemma while_fixed (M : nat) :
  ∀ st cyc,
    Infer.bounded U0 m H (AI.knowledge st) →
    (2 * Infer.slack U0 m H (AI.knowledge st) + length (AI.knowledge st) ≤ M)%nat →
    cyc <= 1 →
    ∃ st', eventually (λ fuel, AI.while_cycles fuel st cyc) st'.
Proof.
  induction M as [M IHM] using lt_wf_ind. intros st cyc Hb HM Hc.
  destruct (decide (cyc > 0)) as [Hpos|Hnpos];
    [|exists st; apply while_done; lia].
  assert (cyc = 1) as -> by lia.
  destruct (Resolve.resolve_loop_terminates (length (AI.knowledge st)) st 0%nat 1)
    as (st1 & c1 & Hrun1 & Hres); [lia|].
  destruct Hres as (Hlen1 & Hu1 & Hc1 & Hcase).
  pose proof (bounded_universe _ _ _ _ Hb) as HsubU.
  apply or_assoc in Hcase.
  destruct Hcase as [Hkeep|Hshrunk];
    [assert (Hlive : Resolve.live (AI.knowledge st1) = Resolve.live (AI.knowledge st))
       by (destruct Hkeep as [[-> _]|(? & _)]; done)|].
  - (* the universe is the same: inference runs within the same bounds *)
    pose proof (bounded_live U0 m H _ _ Hlive Hb) as Hb1.
    pose proof (slack_live U0 m H _ _ Hlive) as Hsl1.
    destruct (infer_outer_terminates U0 m H Hm
                (Infer.slack U0 m H (AI.knowledge st1))
                (length (AI.knowledge st1)) (AI.knowledge st1) 0%nat c1)
      as (kb2 & c2 & Hrun2 & Hb2 & Hp2 & Hg2); [done|lia|done|].
    assert (Hnext : ∃ st',
      eventually (λ fuel, AI.while_cycles fuel (AI.set_knowledge st1 kb2) (c2 - 1)) st').
    { destruct Hg2 as [[-> ->]|(Hlt2 & Hle2 & ->)].
      - destruct Hkeep as [[Hsame ->]|(_ & Hlt1 & ->)].
        + eexists. apply while_done. lia.
        + apply (IHM (2 * Infer.slack U0 m H (AI.knowledge st1)
                      + length (AI.knowledge st1))%nat); simpl; [lia|done|lia|lia].
      - apply (IHM (2 * Infer.slack U0 m H kb2 + length kb2)%nat);
          simpl; [lia|done|lia|lia]. }
    destruct Hnext as [st' Hnext]. exists st'.
    by eapply (while_step st 1 st1 c1 kb2 c2 st').
  - (* the universe got smaller: fresh bounds, then the outer induction *)
    destruct (exists_bounds (AI.knowledge st1)) as (m1 & H1 & Hm1 & Hb1).
    destruct (infer_outer_terminates (KB.universe (AI.knowledge st1)) m1 H1 Hm1
                (Infer.slack (KB.universe (AI.knowledge st1)) m1 H1 (AI.knowledge st1))
                (length (AI.knowledge st1)) (AI.knowledge st1) 0%nat c1)
      as (kb2 & c2 & Hrun2 & Hb2 & Hp2 & Hg2); [done|lia|done|].
    pose proof (bounded_universe _ _ _ _ Hb2) as Hsub2.
    destruct (IHu (AI.set_knowledge st1 kb2) (c2 - 1)) as [st' Hnext].
    + simpl.
      assert (KB.universe kb2 ⊂ U0) as Hss by set_solver.
      apply subset_size in Hss. lia.
    + destruct Hg2 as [[_ ->]|(_ & _ & ->)]; lia.
    + exists st'. by eapply (while_step st 1 st1 c1 kb2 c2 st').
Qed.

End FixedUniverse.

Lemma while_terminates (u : nat) :
  ∀ st cyc, (size (KB.universe (AI.knowledge st)) ≤ u)%nat → cyc <= 1 →
  ∃ st', eventually (λ fuel, AI.while_cycles fuel st cyc) st'.
Proof.
  induction u as [u IHu] using lt_wf_ind. intros st cyc Hu Hc.
  destruct (exists_bounds (AI.knowledge st)) as (m & H & Hm & Hb).
  eapply (while_fixed u); [|exact Hm|exact Hu|exact Hb|done|done].
  intros st0 cyc0 Hlt Hc0.
  by apply (IHu (size (KB.universe (AI.knowledge st0))) Hlt).
Qed.

Lemma add_knowledge_eventually st c n :
  ∃ st', eventually (λ fuel, AI.add_knowledge fuel st c n) st'.
Proof.
  unfold AI.add_knowledge.
  by apply (while_terminates (size (KB.universe (AI.knowledge (AI.add_sentence st c n))))).
Qed.

Lemma play_eventually st probes :
  ∃ st', eventually (λ fuel, Scenario.play fuel st probes) st'.
Proof.
  induction probes as [|probe probes IH] using rev_ind.
  - exists st. by exists 0%nat.
  - destruct IH as (st1 & f1 & Hrun1).
    destruct (add_knowledge_eventually st1 probe.1 probe.2) as (st2 & f2 & Hrun2).
    exists st2, (f1 `max` f2)%nat. intros fuel Hf.
    unfold Scenario.play in *. rewrite foldl_app. simpl.
    rewrite Hrun1 by lia. simpl. apply Hrun2. lia.
Qed.

End Loop.

(** C6: [add_knowledge] terminates: from every state of the knowledge
    base, for every cell and count, a finite number of loop steps suffices
    for it to return; so does every sequence of calls on a fresh
    MinesweeperAI of any height and width. *)
Theorem add_knowledge_terminates :
  (∀ st c n, ∃ fuel st', AI.add_knowledge fuel st c n = Py.Ok st')
  ∧ (∀ h w probes, ∃ fuel st',
       Scenario.play fuel (AI.init h w) probes = Py.Ok st').
Proof.
  split.
  - intros st c n.
    destruct (Loop.add_knowledge_eventually st c n) as (st' & f0 & Hrun).
    exists f0, st'. by apply Hrun.
  - intros h w probes.
    destruct (Loop.play_eventually (AI.init h w) probes) as (st' & f0 & Hrun).
    exists f0, st'. by apply Hrun.
Qed.

(** ** What the inference pass derives *)

Module Closure.

(** The difference of the pair is in [kb] if its count is positive. *)
Definition closed (kb : list Sentence) (A B : Sentence) : Prop :=
  Derive.proper_pair A B → 0 < count B - count A → Derive.difference B A ∈ kb.

(** [kb'] is [kb] followed by sentences with cells and a positive count. *)
Definition extends (kb kb' : list Sentence) : Prop :=
  ∃ added, kb' = kb ++ added
           ∧ Forall (λ d, 0 < count d ∧ cells d ≠ ∅) added.

Lemma extends_refl kb : extends kb kb.
Proof. exists []. by rewrite app_nil_r. Qed.

Lemma extends_trans kb1 kb2 kb3 : extends kb1 kb2 → extends kb2 kb3 → extends kb1 kb3.
Proof.
  intros (a1 & -> & H1) (a2 & -> & H2). exists (a1 ++ a2).
  split; [by rewrite app_assoc|]. by apply Forall_app.
Qed.

Lemma extends_elem_of kb kb' s : extends kb kb' → s ∈ kb → s ∈ kb'.
Proof. intros (a & -> & _) Hs. apply elem_of_app. by left. Qed.

Lemma extends_lookup kb kb' i s : extends kb kb' → kb !! i = Some s → kb' !! i = Some s.
Proof. intros (a & -> & _) Hs. by apply lookup_app_l_Some. Qed.

Lemma extends_new kb kb' s :
  extends kb kb' → s ∈ kb' → s ∉ kb → 0 < count s ∧ cells s ≠ ∅.
Proof.
  intros (a & -> & Ha) Hs Hn. apply elem_of_app in Hs as [Hs|Hs]; [done|].
  by apply (proj1 (Forall_forall _ _) Ha).
Qed.

Lemma closed_extends kb kb' A B : extends kb kb' → closed kb A B → closed kb' A B.
Proof. intros He Hc Hp Hpos. eapply extends_elem_of; [done|]. by apply Hc. Qed.

Lemma proper_sizes A B :
  Derive.proper_pair A B →
  size (cells A) ≠ 0%nat ∧ size (cells B) ≠ 0%nat
  ∧ size (cells A ∖ cells B) = 0%nat ∧ size (cells B ∖ cells A) ≠ 0%nat.
Proof.
  intros (_ & HA & HB & Hsub & Hnot).
  split; [by rewrite KB.size_zero_empty|].
  split; [by rewrite KB.size_zero_empty|].
  split.
  - by apply Infer.difference_empty_subseteq.
  - intros Hz. by apply Infer.difference_empty_subseteq in Hz.
Qed.

(** The body of the inner loop on a proper pair, in either order. *)
Lemma infer_pair_fires kb cyc A B :
  Derive.proper_pair A B →
  let d := Derive.difference B A in
  let r := if decide (0 < count d ∧ d ∉ kb) then (kb ++ [d], 2) else (kb, cyc) in
  AI.infer_pair kb cyc A B = r ∧ AI.infer_pair kb cyc B A = r.
Proof.
  intros Hp. pose proof (proper_sizes A B Hp) as (HA & HB & HAB & HBA).
  destruct Hp as (Hne & _). simpl.
  unfold AI.infer_pair, AI.add_inferred, Derive.difference. cbv zeta.
  assert (Hne' : B ≠ A) by congruence.
  repeat case_decide; simpl; try done;
    exfalso; try tauto; try lia; naive_solver lia.
Qed.

Lemma infer_pair_closed kb cyc A B kb' cyc' :
  AI.infer_pair kb cyc A B = (kb', cyc') →
  (Derive.proper_pair A B → closed kb' A B) ∧ (Derive.proper_pair B A → closed kb' B A).
Proof.
  intros Hrun.
  assert (Hgen : ∀ X Y, (X = A ∧ Y = B) ∨ (X = B ∧ Y = A) →
                        Derive.proper_pair X Y → closed kb' X Y).
  { intros X Y Hxy Hp _ Hpos.
    destruct (infer_pair_fires kb cyc X Y Hp) as [H1 H2]. cbv zeta in H1, H2.
    assert (Hr : (if decide (0 < count (Derive.difference Y X)
                             ∧ Derive.difference Y X ∉ kb)
                  then (kb ++ [Derive.difference Y X], 2) else (kb, cyc))
                 = (kb', cyc')).
    { destruct Hxy as [[-> ->]|[-> ->]]; congruence. }
    destruct (decide (0 < count (Derive.difference Y X)
                      ∧ Derive.difference Y X ∉ kb)) as [Hd|Hd].
    - injection Hr as <- <-. apply elem_of_app. right.
      by apply list_elem_of_singleton.
    - injection Hr as <- <-.
      destruct (decide (Derive.difference Y X ∈ kb)) as [|Hn]; [done|].
      exfalso. apply Hd. split; [simpl; lia|done]. }
  split; intros Hp; apply Hgen; auto.
Qed.

Lemma infer_pair_extends kb cyc A B kb' cyc' :
  A ∈ kb → B ∈ kb → AI.infer_pair kb cyc A B = (kb', cyc') → extends kb kb'.
Proof.
  intros HA HB Hrun.
  destruct (Infer.infer_pair_cases kb cyc A B HA HB) as [Hs|(d & Hd & _ & Hder)].
  - rewrite Hs in Hrun. injection Hrun as <- <-. apply extends_refl.
  - rewrite Hd in Hrun. injection Hrun as <- <-. exists [d]. split; [done|].
    destruct Hder as (? & ? & _ & _ & _ & _ & Hne & _ & Hpos).
    by repeat constructor.
Qed.

(** The inner loop closes every pair made of [sA] and a sentence from
    position [b] on. *)
Lemma infer_inner_closes (fuel : nat) :
  ∀ sA b kb cyc kb' cyc',
    sA ∈ kb →
    AI.infer_inner fuel sA b kb cyc = Py.Ok (kb', cyc') →
    extends kb kb'
    ∧ ∀ j sB, (b ≤ j)%nat → kb' !! j = Some sB →
        (Derive.proper_pair sA sB → closed kb' sA sB)
        ∧ (Derive.proper_pair sB sA → closed kb' sB sA).
Proof.
  induction fuel as [|fuel IH]; intros sA b kb cyc kb' cyc' HA; simpl; [done|].
  destruct (kb !! b) as [sB0|] eqn:Hb.
  - destruct (AI.infer_pair kb cyc sA sB0) as [kb1 c1] eqn:Hpair.
    intros Hrun.
    assert (HB : sB0 ∈ kb) by by eapply list_elem_of_lookup_2.
    pose proof (infer_pair_extends _ _ _ _ _ _ HA HB Hpair) as He1.
    destruct (IH sA (S b) kb1 c1 kb' cyc') as [He2 Hcl];
      [by eapply extends_elem_of|done|].
    split; [by eapply extends_trans|].
    intros j sB Hj HsB. destruct (decide (j = b)) as [->|Hjb].
    + assert (sB = sB0) as ->.
      { pose proof (extends_lookup _ _ _ _ (extends_trans _ _ _ He1 He2) Hb).
        congruence. }
      destruct (infer_pair_closed _ _ _ _ _ _ Hpair) as [H1 H2].
      split; intros Hp; eapply closed_extends; eauto.
    + apply (Hcl j sB); [lia|done].
  - intros [= <- <-]. split; [apply extends_refl|].
    intros j sB Hj HsB. apply lookup_ge_None in Hb.
    apply lookup_lt_Some in HsB. lia.
Qed.

(** The outer loop closes every pair of the final list. *)
Lemma infer_outer_closes (fuel : nat) :
  ∀ a kb cyc kb' cyc',
    AI.infer_outer fuel a kb cyc = Py.Ok (kb', cyc') →
    (∀ i j sA sB, (i < a)%nat → (j < a)%nat →
       kb !! i = Some sA → kb !! j = Some sB → Derive.proper_pair sA sB → closed kb sA sB) →
    extends kb kb'
    ∧ ∀ sA sB, sA ∈ kb' → sB ∈ kb' → Derive.proper_pair sA sB → closed kb' sA sB.
Proof.
  induction fuel as [|fuel IH]; intros a kb cyc kb' cyc'; simpl; [done|].
  destruct (kb !! a) as [sA0|] eqn:Ha.
  - destruct (AI.infer_inner fuel sA0 0 kb cyc) as [[kb1 c1]| |] eqn:Hinner;
      simpl; try done.
    intros Hrun Hinv.
    assert (HA : sA0 ∈ kb) by by eapply list_elem_of_lookup_2.
    destruct (infer_inner_closes fuel _ _ _ _ _ _ HA Hinner) as [He1 Hcl1].
    destruct (IH (S a) kb1 c1 kb' cyc' Hrun) as [He2 Hcl2].
    { intros i j sA sB Hi Hj HsA HsB Hp.
      pose proof (extends_lookup _ _ _ _ He1 Ha) as Ha1.
      destruct (decide (i = a)) as [->|Hia].
      - assert (sA = sA0) as -> by congruence.
        by apply (Hcl1 j sB ltac:(lia) HsB).
      - destruct (decide (j = a)) as [->|Hja].
        + assert (sB = sA0) as -> by congruence.
          by apply (Hcl1 i sA ltac:(lia) HsA).
        + assert (Hlen : (a < length kb)%nat) by by eapply lookup_lt_Some.
          destruct (lookup_lt_is_Some_2 kb i) as [sA' HsA']; [lia|].
          destruct (lookup_lt_is_Some_2 kb j) as [sB' HsB']; [lia|].
          pose proof (extends_lookup _ _ _ _ He1 HsA').
          pose proof (extends_lookup _ _ _ _ He1 HsB').
          assert (sA' = sA) as -> by congruence.
          assert (sB' = sB) as -> by congruence.
          eapply closed_extends; [done|].
          apply (Hinv i j); (lia || done). }
    split; [by eapply extends_trans|done].
  - intros [= <- <-] Hinv. split; [apply extends_refl|].
    intros sA sB [i Hi]%list_elem_of_lookup [j Hj]%list_elem_of_lookup Hp.
    apply lookup_ge_None in Ha.
    pose proof (lookup_lt_Some _ _ _ Hi). pose proof (lookup_lt_Some _ _ _ Hj).
    apply (Hinv i j); (lia || done).
Qed.

(** The inference pass returns. *)
Lemma infer_outer_returns kb cyc :
  ∃ fuel kb' cyc', AI.infer_outer fuel 0 kb cyc = Py.Ok (kb', cyc').
Proof.
  destruct (Termination.exists_bounds kb) as (m & H & Hm & Hb).
  destruct (Termination.infer_outer_terminates (KB.universe kb) m H Hm
              (Infer.slack (KB.universe kb) m H kb) (length kb) kb 0%nat cyc)
    as (kb' & cyc' & [f0 Hrun] & _); [done|lia|done|].
  exists f0, kb', cyc'. by apply Hrun.
Qed.

End Closure.

(** C2: for distinct sentences [A], [B] with cells, those of [A] a proper
    subset of those of [B], the body of the inference loop (on the pair in
    either order) appends [B.cells - A.cells] with count
    [B.count - A.count] exactly when that count is positive and no equal
    sentence is in the list.  The whole pass returns, keeps the list as a
    prefix, and for every such pair of the list has added the difference
    exactly when its count is positive and it was not there before; every
    such pair of the final list with a positive difference has its
    difference in the final list.  From [{(0,0),(0,1)} = 1] and
    [{(0,0),(0,1),(0,2)} = 2] the pass derives [{(0,2)} = 1]. *)
Theorem inference_adds_differences :
  (∀ kb cyc A B,
     Derive.proper_pair A B →
     let d := Derive.difference B A in
     let r := if decide (0 < count d ∧ d ∉ kb) then (kb ++ [d], 2) else (kb, cyc) in
     AI.infer_pair kb cyc A B = r ∧ AI.infer_pair kb cyc B A = r)
  ∧ (∀ kb cyc, ∃ fuel kb' cyc',
       AI.infer_outer fuel 0 kb cyc = Py.Ok (kb', cyc')
       ∧ kb `prefix_of` kb'
       ∧ (∀ A B, A ∈ kb → B ∈ kb → Derive.proper_pair A B →
            let d := Derive.difference B A in
            (d ∈ kb' ∧ d ∉ kb) ↔ (0 < count d ∧ d ∉ kb))
       ∧ (∀ A B, A ∈ kb' → B ∈ kb' → Derive.proper_pair A B →
            0 < count B - count A → Derive.difference B A ∈ kb'))
  ∧ AI.infer_outer 7 0 [Example.A; Example.B] 1
    = Py.Ok ([Example.A; Example.B; mkSentence {[(0, 2)]} 1], 2).
Proof.
  split; [|split].
  - intros kb cyc A B Hp. by apply Closure.infer_pair_fires.
  - intros kb cyc.
    destruct (Closure.infer_outer_returns kb cyc) as (fuel & kb' & cyc' & Hrun).
    exists fuel, kb', cyc'. split; [done|].
    destruct (Closure.infer_outer_closes fuel 0 kb cyc kb' cyc' Hrun) as [He Hcl].
    { intros i j ? ? Hi. lia. }
    split; [destruct He as (added & -> & _); by apply prefix_app_r|].
    split.
    + intros A B HA HB Hp. simpl. split.
      * intros [Hin Hnew]. split; [|done].
        by destruct (Closure.extends_new _ _ _ He Hin Hnew).
      * intros [Hpos Hnew]. split; [|done].
        apply (Hcl A B);
          [by eapply Closure.extends_elem_of|by eapply Closure.extends_elem_of
          |done|done|done].
    + intros A B HA HB Hp Hpos. by apply (Hcl A B).
  - vm_compute. reflexivity.
Qed.

Lemma inference_adds_differences_witness :
  Derive.proper_pair Example.A Example.B
  ∧ AI.infer_pair [Example.A; Example.B] 1 Example.A Example.B
    = ([Example.A; Example.B; mkSentence {[(0, 2)]} 1], 2).
Proof.
  assert (Hp : Derive.proper_pair Example.A Example.B).
  { unfold Derive.proper_pair, Example.A, Example.B. simpl.
    split; [discriminate|]. repeat split; set_solver. }
  split; [exact Hp|].
  destruct inference_adds_differences as [Hpair _].
  destruct (Hpair [Example.A; Example.B] 1 Example.A Example.B Hp) as [-> _].
  vm_compute. reflexivity.
Defined.

(** * Further properties of the board *)

Module BoardMore.

Lemma place_mines_agree h w target ms' b' (n : nat) :
  ∀ draws ms b, (length draws ≤ n)%nat → Placement.agree h w ms b →
  Board.place_mines draws h w target ms b = Py.Ok (ms', b') →
  Placement.agree h w ms' b'.
Proof.
  induction n as [|n IHn]; intros draws ms b Hn Hag;
    (destruct draws as [|r1 [|r2 draws2]]; simpl in Hn |- *; try lia);
    (case_decide; [by intros [= <- <-]|]);
    unfold Py.randrange; repeat case_decide; try discriminate; simpl.
  destruct (Py.getitem b _) as [row| |]; simpl; try discriminate.
  destruct (Py.getitem row _) as [[]| |]; simpl; try discriminate.
  - apply IHn; [lia|done].
  - apply IHn; [lia|].
    apply Placement.set_true_agree; [apply Z.mod_pos_bound; lia..|done].
Qed.

(** The board [__init__] returns: the indicator grid and the set of mines
    say the same, and the mines are on the board. *)
Lemma init_agree h w target draws g :
  Board.init h w target draws = Py.Ok g →
  Board.height g = h ∧ Board.width g = w
  ∧ Board.mines_found g = ∅
  ∧ Placement.agree h w (Board.mines g) (Board.board g)
  ∧ Board.in_grid h w (Board.mines g)
  ∧ Z.of_nat (size (Board.mines g)) = target.
Proof.
  unfold Board.init.
  destruct (Board.place_mines draws h w target ∅ (Board.empty_field h w))
    as [[ms b]| |] eqn:E; simpl; try discriminate.
  intros [= <-]. simpl.
  split; [done|]. split; [done|]. split; [done|]. split.
  - by apply (place_mines_agree h w target ms b (length draws) draws ∅
                (Board.empty_field h w) ltac:(lia) (Placement.empty_field_agree h w)).
  - apply (Placement.place_mines_ok h w target ms b (length draws)) in E as [Hsz Hin];
      [done|done|intros c Hc; set_solver].
Qed.

Lemma around_eq r c :
  Board.around (r, c)
  = [(r - 1, c - 1); (r - 1, c); (r - 1, c + 1);
     (r, c - 1); (r, c); (r, c + 1);
     (r + 1, c - 1); (r + 1, c); (r + 1, c + 1)].
Proof.
  unfold Board.around, Py.range. simpl.
  replace (r + 2 - (r - 1)) with 3 by lia.
  replace (c + 2 - (c - 1)) with 3 by lia.
  unfold seqZ. change (Z.to_nat 3) with 3%nat. simpl.
  repeat (f_equal; try lia).
Qed.

Lemma around_NoDup c : NoDup (Board.around c).
Proof.
  destruct c as [r c]. rewrite around_eq.
  repeat (apply NoDup_cons; split;
          [rewrite ?elem_of_cons, elem_of_nil; intros H;
           repeat (destruct H as [H|H]; [injection H; lia|]); done|]).
  apply NoDup_nil. done.
Qed.

Lemma around_length c : length (Board.around c) = 9%nat.
Proof. destruct c as [r c]. by rewrite around_eq. Qed.

Lemma centre_in_around c : c ∈ Board.around c.
Proof. destruct c as [r c]. rewrite around_eq. set_solver. Qed.

Lemma count_members (M : gset cell) (l : list cell) (k : Z) :
  NoDup l →
  foldl (λ n loc, if decide (loc ∈ M) then n + 1 else n) k l
  = k + Z.of_nat (size ((list_to_set l : gset cell) ∩ M)).
Proof.
  intros Hnd. revert k. induction Hnd as [|x l Hx Hnd IH]; intros k; cbn [foldl].
  - rewrite list_to_set_nil.
    assert ((∅ : gset cell) ∩ M = ∅) as -> by set_solver.
    rewrite size_empty. lia.
  - rewrite IH, list_to_set_cons. case_decide as HxM.
    + assert (({[x]} ∪ list_to_set l) ∩ M = {[x]} ∪ ((list_to_set l : gset cell) ∩ M))
        as -> by set_solver.
      rewrite (size_union {[x]} (list_to_set l ∩ M)).
      * rewrite size_singleton. lia.
      * apply disjoint_singleton_l. intros [Hl _]%elem_of_intersection.
        by apply elem_of_list_to_set in Hl.
    + assert (({[x]} ∪ list_to_set l) ∩ M = (list_to_set l : gset cell) ∩ M)
        as -> by set_solver.
      done.
Qed.

End BoardMore.

Module BoardCount.

Lemma is_mine_on_board (h w target : Z) (draws : list Z)
    (g : Board.Minesweeper) (i j : Z) :
  Board.init h w target draws = Py.Ok g →
  0 <= i < h → 0 <= j < w →
  Board.is_mine g (i, j) = Py.Ok (bool_decide ((i, j) ∈ Board.mines g)).
Proof.
  intros Hg Hi Hj.
  destruct (BoardMore.init_agree _ _ _ _ _ Hg) as (_ & _ & _ & Hag & _).
  destruct (Hag i j Hi Hj) as (row & Hrow & Hcell).
  unfold Board.is_mine.
  rewrite (Placement.getitem_nonneg _ _ row) by (lia || done). simpl.
  by apply Placement.getitem_nonneg; [lia|].
Qed.

Lemma nearby_mines_on_board (h w target : Z) (draws : list Z)
    (g : Board.Minesweeper) (c : cell) :
  Board.init h w target draws = Py.Ok g →
  let n := Z.of_nat (size ((list_to_set (Board.around c) : gset cell)
                           ∩ (Board.mines g ∖ {[c]}))) in
  Board.nearby_mines g c = Py.Ok n ∧ 0 <= n <= 8.
Proof.
  intros Hg n.
  destruct (BoardMore.init_agree _ _ _ _ _ Hg) as (Hh & Hw & _ & Hag & Hin & _).
  split.
  - unfold Board.nearby_mines.
    assert (Hgen : ∀ l k,
      foldl (λ acc loc,
               cnt ← acc;
               if decide (loc = c) then Py.Ok cnt
               else if decide (0 <= loc.1 < Board.height g ∧ 0 <= loc.2 < Board.width g) then
                 row ← Py.getitem (Board.board g) loc.1;
                 isMine ← Py.getitem row loc.2;
                 Py.Ok (if isMine : bool then cnt + 1 else cnt)
               else Py.Ok cnt)
            (Py.Ok k) l
      = Py.Ok (foldl (λ n loc, if decide (loc ∈ Board.mines g ∖ {[c]}) then n + 1 else n)
                     k l)).
    { induction l as [|loc l IH]; intros k; simpl; [done|].
      rewrite <- IH. f_equal.
      destruct (decide (loc = c)) as [->|Hne].
      { rewrite decide_False by set_solver. done. }
      destruct (decide (0 <= loc.1 < Board.height g ∧ 0 <= loc.2 < Board.width g))
        as [[Hi Hj]|Hout].
      - rewrite Hh in Hi. rewrite Hw in Hj.
        destruct (Hag loc.1 loc.2 Hi Hj) as (row & Hrow & Hcell).
        rewrite (Placement.getitem_nonneg _ _ row) by (lia || done). simpl.
        rewrite (Placement.getitem_nonneg row loc.2 _ (proj1 Hj) Hcell). simpl.
        assert (Hloc : (loc.1, loc.2) = loc) by by destruct loc.
        rewrite Hloc. destruct (decide (loc ∈ Board.mines g)) as [Hm|Hm].
        + rewrite bool_decide_eq_true_2 by done.
          rewrite decide_True by set_solver. done.
        + rewrite bool_decide_eq_false_2 by done.
          rewrite decide_False by set_solver. done.
      - rewrite decide_False; [done|].
        intros [Hm _]%elem_of_difference. apply Hin in Hm. lia. }
    rewrite Hgen. rewrite BoardMore.count_members by apply BoardMore.around_NoDup.
    f_equal.
  - split; [lia|]. subst n.
    assert (Hsub : (list_to_set (Board.around c) : gset cell) ∩ (Board.mines g ∖ {[c]})
                   ⊆ list_to_set (Board.around c) ∖ {[c]}) by set_solver.
    apply subseteq_size in Hsub.
    rewrite (size_difference (list_to_set (Board.around c)) {[c]}) in Hsub.
    + rewrite size_list_to_set in Hsub by apply BoardMore.around_NoDup.
      rewrite size_singleton, BoardMore.around_length in Hsub. lia.
    + pose proof (BoardMore.centre_in_around c). set_solver.
Qed.

End BoardCount.

(** X1: on a board returned by [__init__], [is_mine] of a cell on the
    board tells whether the cell is in [self.mines]: the indicator grid and
    the set of mines never disagree. *)
Theorem is_mine_agrees_with_mines (h w target : Z) (draws : list Z)
    (g : Board.Minesweeper) (i j : Z) :
  Board.init h w target draws = Py.Ok g →
  0 <= i < h → 0 <= j < w →
  Board.is_mine g (i, j) = Py.Ok (bool_decide ((i, j) ∈ Board.mines g)).
Proof. apply BoardCount.is_mine_on_board. Qed.

Lemma is_mine_agrees_with_mines_witness :
  ∃ g, Board.init 2 2 1 [1; 0] = Py.Ok g
       ∧ Board.is_mine g (1, 0) = Py.Ok (bool_decide ((1, 0) ∈ Board.mines g))
       ∧ Board.is_mine g (0, 1) = Py.Ok (bool_decide ((0, 1) ∈ Board.mines g)).
Proof.
  eexists. split; [vm_compute; reflexivity|].
  split; apply (is_mine_agrees_with_mines 2 2 1 [1; 0]);
    (vm_compute; reflexivity) || lia.
Defined.

(** X2: on a board returned by [__init__], [nearby_mines] never raises,
    for any cell, on or off the board: it returns the number of members of
    [self.mines] within one row and column of the cell, the cell itself
    left out; the result is between 0 and 8. *)
Theorem nearby_mines_counts_mines (h w target : Z) (draws : list Z)
    (g : Board.Minesweeper) (c : cell) :
  Board.init h w target draws = Py.Ok g →
  let n := Z.of_nat (size ((list_to_set (Board.around c) : gset cell)
                           ∩ (Board.mines g ∖ {[c]}))) in
  Board.nearby_mines g c = Py.Ok n ∧ 0 <= n <= 8.
Proof. apply BoardCount.nearby_mines_on_board. Qed.

Lemma nearby_mines_counts_mines_witness :
  ∃ g, Board.init 2 2 2 [0; 0; 1; 1] = Py.Ok g
       ∧ Board.nearby_mines g (0, 1) = Py.Ok 2
       ∧ (∃ n, Board.nearby_mines g (-1, 5) = Py.Ok n ∧ 0 <= n <= 8).
Proof.
  eexists. split; [vm_compute; reflexivity|]. split.
  - vm_compute. reflexivity.
  - eexists. apply (nearby_mines_counts_mines 2 2 2 [0; 0; 1; 1]).
    vm_compute. reflexivity.
Defined.

(** X3: a board just returned by [__init__] is won exactly when it was
    built without mines: nothing is flagged yet, and [won] compares the
    flagged cells with the mines. *)
Theorem fresh_board_won (h w target : Z) (draws : list Z) (g : Board.Minesweeper) :
  Board.init h w target draws = Py.Ok g →
  (Board.won g = true ↔ target = 0).
Proof.
  intros Hg.
  destruct (BoardMore.init_agree _ _ _ _ _ Hg) as (_ & _ & Hf & _ & _ & Hsz).
  unfold Board.won. rewrite bool_decide_eq_true, Hf. split.
  - intros He. rewrite <- He, size_empty in Hsz. lia.
  - intros ->. symmetry. apply KB.size_zero_empty. lia.
Qed.

Lemma fresh_board_won_witness :
  ∃ g, Board.init 2 2 1 [1; 0] = Py.Ok g ∧ Board.won g ≠ true.
Proof.
  eexists. split; [vm_compute; reflexivity|].
  intros Hw. apply (fresh_board_won 2 2 1 [1; 0]) in Hw; [lia|].
  vm_compute. reflexivity.
Defined.

(** * The move selectors *)

Module MovesFacts.

Lemma set_pop_spec (X : gset cell) (r : nat) :
  match Moves.set_pop X r with
  | Moves.Move c => c ∈ X
  | Moves.NoMove => False
  | Moves.KeyError => X = ∅
  end.
Proof.
  unfold Moves.set_pop.
  destruct (elements X !! (r `mod` length (elements X))%nat) as [c|] eqn:E.
  - apply elem_of_elements. by eapply list_elem_of_lookup_2.
  - apply lookup_ge_None in E.
    destruct (elements X) as [|x l] eqn:El.
    + apply elements_empty_inv in El. by unfold_leibniz.
    + exfalso. pose proof (Nat.mod_upper_bound r (length (x :: l))) as Hb.
      simpl in *. lia.
Qed.

Lemma set_pop_any (X : gset cell) (c : cell) :
  c ∈ X → ∃ r, Moves.set_pop X r = Moves.Move c.
Proof.
  intros Hc. apply elem_of_elements, list_elem_of_lookup in Hc as [i Hi].
  exists i. unfold Moves.set_pop.
  rewrite Nat.mod_small by by eapply lookup_lt_Some. by rewrite Hi.
Qed.

Lemma elem_of_all_moves st c :
  c ∈ Moves.all_moves st ↔ 0 <= c.1 < AI.height st ∧ 0 <= c.2 < AI.width st.
Proof.
  unfold Moves.all_moves.
  assert (Hfold : ∀ (l : list cell) (acc : gset cell),
            foldl (λ allMoves c, allMoves ∪ {[c]}) acc l = acc ∪ list_to_set l).
  { induction l as [|x l IH]; intros acc; simpl; [set_solver|].
    rewrite IH. set_solver. }
  rewrite Hfold, elem_of_union, elem_of_list_to_set, list_elem_of_bind.
  unfold Py.range. split.
  - intros [Hc|(i & Hj & Hi)]; [set_solver|].
    apply list_elem_of_bind in Hj as (j & Hc & Hj).
    apply list_elem_of_singleton in Hc as ->. simpl.
    apply elem_of_seqZ in Hi. apply elem_of_seqZ in Hj. lia.
  - intros [Hi Hj]. right. exists c.1. split; [|apply elem_of_seqZ; lia].
    apply list_elem_of_bind. exists c.2. split; [|apply elem_of_seqZ; lia].
    destruct c. by apply list_elem_of_singleton.
Qed.

End MovesFacts.

(** X4: [make_safe_move] never fails; the cell it returns is known safe,
    has not been played and is not a known mine; it returns [None] only
    when there is no such cell; and every such cell can be the one
    returned. *)
Theorem make_safe_move_spec (st : AI.MinesweeperAI) :
  (∀ r, match Moves.make_safe_move st r with
        | Moves.Move c =>
            c ∈ AI.safes st ∧ (c ∉ AI.moves_made st) ∧ (c ∉ AI.mines st)
        | Moves.NoMove => AI.safes st ⊆ AI.moves_made st ∪ AI.mines st
        | Moves.KeyError => False
        end)
  ∧ (∀ c, c ∈ AI.safes st → c ∉ AI.moves_made st → c ∉ AI.mines st →
          ∃ r, Moves.make_safe_move st r = Moves.Move c).
Proof.
  split.
  - intros r. unfold Moves.make_safe_move. cbv zeta.
    pose proof (MovesFacts.set_pop_spec
                  (AI.safes st ∖ AI.moves_made st ∖ AI.mines st) r) as Hpop.
    case_decide as Hsz.
    + apply KB.size_zero_empty in Hsz. intros c Hc.
      destruct (decide (c ∈ AI.moves_made st)); [set_solver|].
      destruct (decide (c ∈ AI.mines st)); [set_solver|].
      assert (c ∈ AI.safes st ∖ AI.moves_made st ∖ AI.mines st) as Hin by set_solver.
      rewrite Hsz in Hin. set_solver.
    + destruct (Moves.set_pop _ r); [set_solver|done|].
      by apply KB.size_zero_empty in Hpop.
  - intros c Hs Hm Hn. unfold Moves.make_safe_move. cbv zeta.
    assert (Hin : c ∈ AI.safes st ∖ AI.moves_made st ∖ AI.mines st) by set_solver.
    assert (Hsz : size (AI.safes st ∖ AI.moves_made st ∖ AI.mines st) ≠ 0%nat).
    { intros Hz%KB.size_zero_empty. rewrite Hz in Hin. set_solver. }
    destruct (MovesFacts.set_pop_any _ _ Hin) as [r Hr].
    exists r. by rewrite decide_False.
Qed.

Lemma make_safe_move_spec_witness :
  let st := AI.mk 2 2 {[(0, 0)]} {[(1, 1)]} {[(0, 0); (0, 1)]} [] in
  ∃ r, Moves.make_safe_move st r = Moves.Move (0, 1).
Proof.
  intros st. apply (make_safe_move_spec st); simpl; set_solver.
Defined.

(** X5: [make_random_move] never fails; the cell it returns is on the
    board, has not been played and is not a known mine; it returns [None]
    only when every cell of the board has been played or is a known mine;
    and every other cell of the board can be the one returned. *)
Theorem make_random_move_spec (st : AI.MinesweeperAI) :
  (∀ r, match Moves.make_random_move st r with
        | Moves.Move c =>
            (0 <= c.1 < AI.height st ∧ 0 <= c.2 < AI.width st)
            ∧ (c ∉ AI.moves_made st) ∧ (c ∉ AI.mines st)
        | Moves.NoMove =>
            ∀ c, 0 <= c.1 < AI.height st → 0 <= c.2 < AI.width st →
                 c ∈ AI.moves_made st ∪ AI.mines st
        | Moves.KeyError => False
        end)
  ∧ (∀ c, 0 <= c.1 < AI.height st → 0 <= c.2 < AI.width st →
          c ∉ AI.moves_made st → c ∉ AI.mines st →
          ∃ r, Moves.make_random_move st r = Moves.Move c).
Proof.
  split.
  - intros r. unfold Moves.make_random_move. cbv zeta.
    pose proof (MovesFacts.set_pop_spec
                  (Moves.all_moves st ∖ AI.mines st ∖ AI.moves_made st) r) as Hpop.
    case_decide as Hsz.
    + apply KB.size_zero_empty in Hsz. intros c Hi Hj.
      destruct (decide (c ∈ AI.moves_made st)); [set_solver|].
      destruct (decide (c ∈ AI.mines st)); [set_solver|].
      assert (c ∈ Moves.all_moves st ∖ AI.mines st ∖ AI.moves_made st) as Hin.
      { rewrite !elem_of_difference, MovesFacts.elem_of_all_moves. done. }
      rewrite Hsz in Hin. set_solver.
    + destruct (Moves.set_pop _ r) as [c| |]; [|done|].
      * rewrite !elem_of_difference, MovesFacts.elem_of_all_moves in Hpop. tauto.
      * by apply KB.size_zero_empty in Hpop.
  - intros c Hi Hj Hm Hn. unfold Moves.make_random_move. cbv zeta.
    assert (Hin : c ∈ Moves.all_moves st ∖ AI.mines st ∖ AI.moves_made st).
    { rewrite !elem_of_difference, MovesFacts.elem_of_all_moves. done. }
    assert (Hsz : size (Moves.all_moves st ∖ AI.mines st ∖ AI.moves_made st) ≠ 0%nat).
    { intros Hz%KB.size_zero_empty. rewrite Hz in Hin. set_solver. }
    destruct (MovesFacts.set_pop_any _ _ Hin) as [r Hr].
    exists r. by rewrite decide_False.
Qed.

Lemma make_random_move_spec_witness :
  let st := AI.mk 2 2 {[(0, 0)]} {[(1, 1)]} {[(0, 0); (0, 1)]} [] in
  ∃ r, Moves.make_random_move st r = Moves.Move (1, 0).
Proof.
  intros st. apply (make_random_move_spec st); simpl; (lia || set_solver).
Defined.

(** * Invariants of add_knowledge *)

Module Inv.

Lemma set_knowledge_id st : AI.set_knowledge st (AI.knowledge st) = st.
Proof. by destruct st. Qed.

Lemma remove_at_ok st idx st' :
  AI.remove_at st idx = Py.Ok st' →
  ∃ l1 s l2, AI.knowledge st = l1 ++ s :: l2
             ∧ st' = AI.set_knowledge st (l1 ++ l2).
Proof.
  unfold AI.remove_at.
  destruct (AI.knowledge st !! idx) as [s|]; [|done].
  destruct (Py.list_remove s (AI.knowledge st)) as [kb|] eqn:E; [|done].
  intros [= <-]. apply list_remove_split in E as (l1 & l2 & -> & ->).
  by exists l1, s, l2.
Qed.

(** A property of the state is kept by every run of [add_knowledge] when
    it is kept by the four things the loops do: resolving a sentence
    without mines, resolving a sentence of mines only, dropping sentences,
    and appending a derived sentence. *)
Section Preserved.

Context (P : AI.MinesweeperAI → Prop).
Context (Hsafe : ∀ st s, P st → s ∈ AI.knowledge st → count s = 0 →
                   P (AI.mark_safe_all st (cells s))).
Context (Hmine : ∀ st s, P st → s ∈ AI.knowledge st →
                   Z.of_nat (size (cells s)) <= count s →
                   P (AI.mark_mine_all st (cells s))).
Context (Hdrop : ∀ st kb, P st → (∀ s, s ∈ kb → s ∈ AI.knowledge st) →
                   P (AI.set_knowledge st kb)).
Context (Hadd : ∀ st d, P st → Infer.derived (AI.knowledge st) d →
                  P (AI.set_knowledge st (AI.knowledge st ++ [d]))).

Lemma remove_at_preserves st idx st' :
  P st → AI.remove_at st idx = Py.Ok st' → P st'.
Proof.
  intros HP (l1 & s & l2 & Hkb & ->)%remove_at_ok. apply Hdrop; [done|].
  intros s' Hs'. rewrite Hkb. set_solver.
Qed.

Lemma resolve_loop_preserves (fuel : nat) :
  ∀ idx st cyc st' cyc',
    P st → AI.resolve_loop fuel idx st cyc = Py.Ok (st', cyc') → P st'.
Proof.
  induction fuel as [|fuel IH]; intros idx st cyc st' cyc' HP; simpl; [done|].
  destruct (AI.knowledge st !! idx) as [s|] eqn:Hidx; [|by intros [= <- <-]].
  assert (Hs : s ∈ AI.knowledge st) by by eapply list_elem_of_lookup_2.
  unfold Sent.known_safes, Sent.known_mines.
  destruct (decide (count s = 0)) as [Hz|Hnz].
  { destruct (AI.remove_at (AI.mark_safe_all st (cells s)) idx) as [st1| |] eqn:Hrm;
      simpl; try done.
    apply IH. eapply remove_at_preserves; [|done]. by apply Hsafe. }
  destruct (decide (Z.of_nat (size (cells s)) <= count s)) as [Hm|Hnm].
  { destruct (AI.remove_at (AI.mark_mine_all st (cells s)) idx) as [st1| |] eqn:Hrm;
      simpl; try done.
    apply IH. eapply remove_at_preserves; [|done]. by apply Hmine. }
  by apply IH.
Qed.

Lemma infer_pair_preserves st cyc sA sB kb' cyc' :
  P st → sA ∈ AI.knowledge st → sB ∈ AI.knowledge st →
  AI.infer_pair (AI.knowledge st) cyc sA sB = (kb', cyc') →
  P (AI.set_knowledge st kb') ∧ sA ∈ kb'.
Proof.
  intros HP HA HB Hrun.
  destruct (Infer.infer_pair_cases _ cyc _ _ HA HB) as [Hs|(d & Hd & _ & Hder)].
  - rewrite Hs in Hrun. injection Hrun as <- <-.
    by rewrite set_knowledge_id.
  - rewrite Hd in Hrun. injection Hrun as <- <-.
    split; [by apply Hadd|]. set_solver.
Qed.

Lemma infer_inner_preserves (fuel : nat) :
  ∀ st sA b cyc kb' cyc',
    P st → sA ∈ AI.knowledge st →
    AI.infer_inner fuel sA b (AI.knowledge st) cyc = Py.Ok (kb', cyc') →
    P (AI.set_knowledge st kb').
Proof.
  induction fuel as [|fuel IH]; intros st sA b cyc kb' cyc' HP HA; simpl; [done|].
  destruct (AI.knowledge st !! b) as [sB|] eqn:Hb.
  - destruct (AI.infer_pair (AI.knowledge st) cyc sA sB) as [kb1 c1] eqn:Hpair.
    assert (HB : sB ∈ AI.knowledge st) by by eapply list_elem_of_lookup_2.
    destruct (infer_pair_preserves _ _ _ _ _ _ HP HA HB Hpair) as [HP1 HA1].
    intros Hrun. by apply (IH (AI.set_knowledge st kb1) sA (S b) c1 kb' cyc' HP1 HA1).
  - intros [= <- <-]. by rewrite set_knowledge_id.
Qed.

Lemma infer_outer_preserves (fuel : nat) :
  ∀ st a cyc kb' cyc',
    P st →
    AI.infer_outer fuel a (AI.knowledge st) cyc = Py.Ok (kb', cyc') →
    P (AI.set_knowledge st kb').
Proof.
  induction fuel as [|fuel IH]; intros st a cyc kb' cyc' HP; simpl; [done|].
  destruct (AI.knowledge st !! a) as [sA|] eqn:Ha.
  - destruct (AI.infer_inner fuel sA 0 (AI.knowledge st) cyc) as [[kb1 c1]| |] eqn:Hin;
      simpl; try done.
    assert (HA : sA ∈ AI.knowledge st) by by eapply list_elem_of_lookup_2.
    pose proof (infer_inner_preserves _ _ _ _ _ _ _ HP HA Hin) as HP1.
    intros Hrun. by apply (IH (AI.set_knowledge st kb1) (S a) c1 kb' cyc' HP1).
  - intros [= <- <-]. by rewrite set_knowledge_id.
Qed.

Lemma while_preserves (fuel : nat) :
  ∀ st cyc st', P st → AI.while_cycles fuel st cyc = Py.Ok st' → P st'.
Proof.
  induction fuel as [|fuel IH]; intros st cyc st' HP; simpl; [done|].
  case_decide; [|by intros [= <-]].
  destruct (AI.resolve_loop fuel 0 st cyc) as [[st1 c1]| |] eqn:Hres; simpl; try done.
  destruct (AI.infer_outer fuel 0 (AI.knowledge st1) c1) as [[kb2 c2]| |] eqn:Hinf;
    simpl; try done.
  apply IH. eapply infer_outer_preserves; [|done].
  by eapply resolve_loop_preserves.
Qed.

Lemma add_knowledge_preserves fuel st c n st' :
  P (AI.add_sentence st c n) → AI.add_knowledge fuel st c n = Py.Ok st' → P st'.
Proof. unfold AI.add_knowledge. apply while_preserves. Qed.

End Preserved.

(** A run of [play] is a run on all probes but the last, then one call. *)
Lemma play_snoc fuel st probes probe st' :
  Scenario.play fuel st (probes ++ [probe]) = Py.Ok st' →
  ∃ st1, Scenario.play fuel st probes = Py.Ok st1
         ∧ AI.add_knowledge fuel st1 probe.1 probe.2 = Py.Ok st'.
Proof.
  unfold Scenario.play. rewrite foldl_app. simpl.
  destruct (foldl _ (Py.Ok st) probes) as [st1| |]; simpl; try done. eauto.
Qed.

Lemma play_preserves (P : AI.MinesweeperAI → Prop) fuel st :
  (∀ st1 c n st2, P st1 → AI.add_knowledge fuel st1 c n = Py.Ok st2 → P st2) →
  ∀ probes st', P st → Scenario.play fuel st probes = Py.Ok st' → P st'.
Proof.
  intros Hstep probes. induction probes as [|probe probes IH] using rev_ind;
    intros st' HP.
  - by intros [= <-].
  - intros (st1 & Hrun1 & Hrun2)%play_snoc. eapply Hstep; [|done]. by apply IH.
Qed.

End Inv.

Module AIMore.

Lemma universe_marked (kb kb' : list Sentence) (X : gset cell) :
  cells <$> kb' = (λ s, cells s ∖ X) <$> kb →
  KB.universe kb' = KB.universe kb ∖ X.
Proof.
  intros Hcells. unfold KB.universe at 1. rewrite Hcells.
  apply set_eq. intros c. rewrite elem_of_union_list, elem_of_difference,
    KB.elem_of_universe. split.
  - intros (Y & HY & Hc). apply list_elem_of_fmap in HY as (s' & -> & Hs').
    set_solver.
  - intros [(s' & Hs' & Hc) Hn]. exists (cells s' ∖ X). split; [|set_solver].
    apply list_elem_of_fmap. eauto.
Qed.

Lemma marked_cells (kb kb' : list Sentence) (X : gset cell) (s' : Sentence) :
  cells <$> kb' = (λ s, cells s ∖ X) <$> kb → s' ∈ kb' →
  ∃ s, s ∈ kb ∧ cells s' = cells s ∖ X.
Proof.
  intros Hcells Hs'. apply (list_elem_of_fmap_2 cells) in Hs'.
  rewrite Hcells in Hs'. apply list_elem_of_fmap in Hs' as (s & Hs & Hin). eauto.
Qed.

Lemma mark_safe_all_state (st : AI.MinesweeperAI) (X : gset cell) :
  AI.height (AI.mark_safe_all st X) = AI.height st
  ∧ AI.width (AI.mark_safe_all st X) = AI.width st
  ∧ AI.moves_made (AI.mark_safe_all st X) = AI.moves_made st
  ∧ AI.mines (AI.mark_safe_all st X) = AI.mines st
  ∧ AI.safes (AI.mark_safe_all st X) = AI.safes st ∪ X
  ∧ cells <$> AI.knowledge (AI.mark_safe_all st X)
    = (λ s, cells s ∖ X) <$> AI.knowledge st.
Proof.
  unfold AI.mark_safe_all.
  destruct (mark_safe_all_fields st (elements X)) as (-> & -> & -> & -> & ->).
  rewrite mark_safe_all_cells, list_to_set_elements_L. done.
Qed.

Lemma mark_mine_all_state (st : AI.MinesweeperAI) (X : gset cell) :
  AI.height (AI.mark_mine_all st X) = AI.height st
  ∧ AI.width (AI.mark_mine_all st X) = AI.width st
  ∧ AI.moves_made (AI.mark_mine_all st X) = AI.moves_made st
  ∧ AI.mines (AI.mark_mine_all st X) = AI.mines st ∪ X
  ∧ AI.safes (AI.mark_mine_all st X) = AI.safes st
  ∧ cells <$> AI.knowledge (AI.mark_mine_all st X)
    = (λ s, cells s ∖ X) <$> AI.knowledge st.
Proof.
  unfold AI.mark_mine_all.
  destruct (mark_mine_all_fields st (elements X)) as (-> & -> & -> & -> & ->).
  rewrite mark_mine_all_cells, list_to_set_elements_L. done.
Qed.

Lemma universe_sub kb kb' :
  (∀ s, s ∈ kb' → s ∈ kb) → KB.universe kb' ⊆ KB.universe kb.
Proof.
  intros Hsub c (s & Hs & Hc)%KB.elem_of_universe.
  apply KB.elem_of_universe. eauto.
Qed.

Lemma universe_snoc kb d : KB.universe (kb ++ [d]) = KB.universe kb ∪ cells d.
Proof. rewrite KB.universe_app, KB.universe_cons. unfold KB.universe. set_solver. Qed.

Lemma derived_cells kb d : Infer.derived kb d → cells d ⊆ KB.universe kb.
Proof.
  intros (big & small & Hbig & _ & _ & _ & _ & -> & _). simpl.
  pose proof (KB.cells_subseteq_universe kb big Hbig). set_solver.
Qed.

(** Step 3a: the cells collected around the probed cell. *)
Lemma elem_of_new_cells st c loc :
  loc ∈ AI.new_cells st c ↔
  loc ∈ Board.around c
  ∧ (0 <= loc.1 < AI.height st ∧ 0 <= loc.2 < AI.width st)
  ∧ loc ≠ c
  ∧ (loc ∉ AI.moves_made st) ∧ (loc ∉ AI.mines st) ∧ (loc ∉ AI.safes st).
Proof.
  unfold AI.new_cells.
  assert (Hgen : ∀ l (acc : gset cell),
    loc ∈ foldl (AI.collect st c) acc l ↔
    loc ∈ acc
    ∨ (loc ∈ l
       ∧ (0 <= loc.1 < AI.height st ∧ 0 <= loc.2 < AI.width st)
       ∧ loc ≠ c
       ∧ (loc ∉ AI.moves_made st) ∧ (loc ∉ AI.mines st) ∧ (loc ∉ AI.safes st))).
  { induction l as [|x l IH]; intros acc; cbn [foldl].
    - rewrite elem_of_nil. tauto.
    - rewrite IH, elem_of_cons. unfold AI.collect. destruct x as [i j].
      repeat case_decide; rewrite ?elem_of_union, ?elem_of_singleton;
        simpl in *; split; intros Hx;
        repeat match goal with
               | H : _ ∨ _ |- _ => destruct H
               | H : _ ∧ _ |- _ => destruct H
               end; subst; simpl in *; try tauto; try lia; try (exfalso; tauto);
        try (right; split; [by left|]; split; [lia|]; tauto). }
  rewrite Hgen, elem_of_empty. tauto.
Qed.

(** The fields of the state after steps 1 to 3. *)
Lemma add_sentence_state st c n :
  let st' := AI.add_sentence st c n in
  AI.height st' = AI.height st ∧ AI.width st' = AI.width st
  ∧ AI.moves_made st' = AI.moves_made st ∪ {[c]}
  ∧ AI.mines st' = AI.mines st
  ∧ AI.safes st' = AI.safes st ∪ {[c]}
  ∧ ∀ s', s' ∈ AI.knowledge st' →
      (∃ s, s ∈ AI.knowledge st ∧ s' = Sent.mark_safe s c)
      ∨ (s' = mkSentence (AI.new_cells (AI.add_sentence st c n) c) n
         ∧ cells s' ≠ ∅).
Proof.
  unfold AI.add_sentence. cbv zeta.
  case_decide as Hsz; simpl; (repeat (split; [done|])); intros s' Hs'.
  - apply elem_of_app in Hs' as [Hs'|Hs'].
    + left. apply list_elem_of_fmap in Hs' as (s & -> & Hs). eauto.
    + right. apply list_elem_of_singleton in Hs' as ->. split.
      * done.
      * simpl. by rewrite <- KB.size_zero_empty.
  - left. apply list_elem_of_fmap in Hs' as (s & -> & Hs). eauto.
Qed.

End AIMore.

(** X6: a call of [add_knowledge] that returns has left the board size
    alone, has added the probed cell, and nothing else, to [moves_made],
    has kept every cell already in [safes] or [mines] and added the probed
    cell to [safes]; and every cell it knows or mentions afterwards was
    known or mentioned before, or is the probed cell or one of the cells
    around it. *)
Theorem add_knowledge_frame (fuel : nat) (st : AI.MinesweeperAI) (c : cell) (n : Z)
    (st' : AI.MinesweeperAI) :
  AI.add_knowledge fuel st c n = Py.Ok st' →
  AI.height st' = AI.height st ∧ AI.width st' = AI.width st
  ∧ AI.moves_made st' = AI.moves_made st ∪ {[c]}
  ∧ AI.safes st ∪ {[c]} ⊆ AI.safes st'
  ∧ AI.mines st ⊆ AI.mines st'
  ∧ AI.safes st' ∪ AI.mines st' ∪ KB.universe (AI.knowledge st')
    ⊆ AI.safes st ∪ AI.mines st ∪ KB.universe (AI.knowledge st)
      ∪ list_to_set (Board.around c).
Proof.
  set (K := AI.safes st ∪ AI.mines st ∪ KB.universe (AI.knowledge st)
            ∪ list_to_set (Board.around c)).
  set (P := λ st1 : AI.MinesweeperAI,
    AI.height st1 = AI.height st ∧ AI.width st1 = AI.width st
    ∧ AI.moves_made st1 = AI.moves_made st ∪ {[c]}
    ∧ AI.safes st ∪ {[c]} ⊆ AI.safes st1
    ∧ AI.mines st ⊆ AI.mines st1
    ∧ AI.safes st1 ∪ AI.mines st1 ∪ KB.universe (AI.knowledge st1) ⊆ K).
  intros Hrun. apply (Inv.add_knowledge_preserves P) in Hrun; [exact Hrun|..].
  - intros st1 s (Hh & Hw & Hmv & Hs & Hm & HK) Hin _.
    destruct (AIMore.mark_safe_all_state st1 (cells s))
      as (Eh & Ew & Emv & Em & Es & Ec).
    pose proof (AIMore.universe_marked _ _ _ Ec) as Hu.
    pose proof (KB.cells_subseteq_universe _ _ Hin) as Hsub.
    unfold P. rewrite Eh, Ew, Emv, Em, Es, Hu.
    repeat (split; [done || set_solver|]). set_solver.
  - intros st1 s (Hh & Hw & Hmv & Hs & Hm & HK) Hin _.
    destruct (AIMore.mark_mine_all_state st1 (cells s))
      as (Eh & Ew & Emv & Em & Es & Ec).
    pose proof (AIMore.universe_marked _ _ _ Ec) as Hu.
    pose proof (KB.cells_subseteq_universe _ _ Hin) as Hsub.
    unfold P. rewrite Eh, Ew, Emv, Em, Es, Hu.
    repeat (split; [done || set_solver|]). set_solver.
  - intros st1 kb (Hh & Hw & Hmv & Hs & Hm & HK) Hsub.
    pose proof (AIMore.universe_sub _ _ Hsub) as Hu.
    unfold P. simpl. repeat (split; [done|]). set_solver.
  - intros st1 d (Hh & Hw & Hmv & Hs & Hm & HK) Hd.
    pose proof (AIMore.derived_cells _ _ Hd) as Hsub.
    unfold P. simpl. rewrite AIMore.universe_snoc.
    repeat (split; [done|]). set_solver.
  - destruct (AIMore.add_sentence_state st c n) as (Eh & Ew & Emv & Em & Es & Hkb).
    unfold P. rewrite Eh, Ew, Emv, Em, Es.
    repeat (split; [done || set_solver|]).
    assert (Hu : KB.universe (AI.knowledge (AI.add_sentence st c n))
                 ⊆ KB.universe (AI.knowledge st) ∪ list_to_set (Board.around c)).
    { intros loc (s' & Hs' & Hloc)%KB.elem_of_universe.
      destruct (Hkb s' Hs') as [(s & Hs & ->)|[-> _]].
      - rewrite mark_safe_cells in Hloc. apply elem_of_union. left.
        apply KB.elem_of_universe. exists s. set_solver.
      - simpl in Hloc. apply AIMore.elem_of_new_cells in Hloc as [Hloc _].
        set_solver. }
    pose proof (BoardMore.centre_in_around c) as Hc.
    unfold K. set_solver.
Qed.

Lemma add_knowledge_frame_witness :
  ∃ st', AI.add_knowledge 3 (AI.init 3 3) (0, 0) 0 = Py.Ok st'
         ∧ AI.moves_made st' = AI.moves_made (AI.init 3 3) ∪ {[(0, 0)]}.
Proof.
  eexists. split; [vm_compute; reflexivity|].
  eapply (add_knowledge_frame 3 (AI.init 3 3) (0, 0) 0). vm_compute. reflexivity.
Defined.

(** X7: in every state reached from a fresh MinesweeperAI by calls of
    [add_knowledge], no sentence mentions a cell that is known safe or
    known to be a mine, and every cell played is known safe. *)
Theorem knowledge_mentions_unknown_cells (fuel : nat) (h w : Z)
    (probes : list (cell * Z)) (st : AI.MinesweeperAI) :
  Scenario.play fuel (AI.init h w) probes = Py.Ok st →
  (∀ s, s ∈ AI.knowledge st → cells s ## AI.safes st ∪ AI.mines st)
  ∧ AI.moves_made st ⊆ AI.safes st.
Proof.
  set (P := λ st1 : AI.MinesweeperAI,
    (∀ s, s ∈ AI.knowledge st1 → cells s ## AI.safes st1 ∪ AI.mines st1)
    ∧ AI.moves_made st1 ⊆ AI.safes st1).
  apply (Inv.play_preserves P).
  - intros st1 c n st2 [Hsep Hmv].
    apply Inv.add_knowledge_preserves.
    + intros st3 s [Hsep3 Hmv3] Hin _.
      destruct (AIMore.mark_safe_all_state st3 (cells s))
        as (Eh & Ew & Emv & Em & Es & Ec).
      unfold P. rewrite Emv, Em, Es. split; [|set_solver].
      intros s' Hs'. destruct (AIMore.marked_cells _ _ _ _ Ec Hs') as (s0 & Hs0 & ->).
      specialize (Hsep3 s0 Hs0). set_solver.
    + intros st3 s [Hsep3 Hmv3] Hin _.
      destruct (AIMore.mark_mine_all_state st3 (cells s))
        as (Eh & Ew & Emv & Em & Es & Ec).
      unfold P. rewrite Emv, Em, Es. split; [|set_solver].
      intros s' Hs'. destruct (AIMore.marked_cells _ _ _ _ Ec Hs') as (s0 & Hs0 & ->).
      specialize (Hsep3 s0 Hs0). set_solver.
    + intros st3 kb [Hsep3 Hmv3] Hsub. unfold P. simpl. split; [|done].
      intros s Hs. by apply Hsep3, Hsub.
    + intros st3 d [Hsep3 Hmv3] (big & small & Hbig & _ & _ & _ & _ & -> & _).
      unfold P. simpl. split; [|done].
      intros s [Hs|Hs]%elem_of_app; [by apply Hsep3|].
      apply list_elem_of_singleton in Hs as ->. simpl.
      specialize (Hsep3 big Hbig). set_solver.
    + destruct (AIMore.add_sentence_state st1 c n) as (Eh & Ew & Emv & Em & Es & Hkb).
      unfold P. rewrite Emv, Em, Es. split; [|set_solver].
      intros s' Hs'. destruct (Hkb s' Hs') as [(s & Hs & ->)|[-> _]].
      * rewrite mark_safe_cells. specialize (Hsep s Hs). set_solver.
      * simpl. intros loc Hloc Hknown.
        apply AIMore.elem_of_new_cells in Hloc as (_ & _ & _ & _ & Hm & Hs).
        rewrite Em in Hm. rewrite Es in Hs. set_solver.
  - unfold P. simpl. split; [|done]. by intros s ?%elem_of_nil.
Qed.

Lemma knowledge_mentions_unknown_cells_witness :
  ∃ st, Scenario.play 4 (AI.init 3 3) [((0, 0), 0); ((1, 1), 1)] = Py.Ok st
        ∧ AI.moves_made st ⊆ AI.safes st.
Proof.
  eexists. split; [vm_compute; reflexivity|].
  eapply (knowledge_mentions_unknown_cells 4 3 3 [((0, 0), 0); ((1, 1), 1)]).
  vm_compute. reflexivity.
Defined.

(** X8: a call of [add_knowledge] for a cell that is not a known mine
    keeps [safes] and [mines] disjoint, when no sentence mentions a known
    cell (as on every state reached from a fresh MinesweeperAI). *)
Theorem add_knowledge_keeps_disjoint (fuel : nat) (st : AI.MinesweeperAI)
    (c : cell) (n : Z) (st' : AI.MinesweeperAI) :
  AI.safes st ## AI.mines st →
  (∀ s, s ∈ AI.knowledge st → cells s ## AI.safes st ∪ AI.mines st) →
  c ∉ AI.mines st →
  AI.add_knowledge fuel st c n = Py.Ok st' →
  AI.safes st' ## AI.mines st'.
Proof.
  intros Hdis Hsep Hc Hrun.
  set (P := λ st1 : AI.MinesweeperAI,
    AI.safes st1 ## AI.mines st1
    ∧ ∀ s, s ∈ AI.knowledge st1 → cells s ## AI.safes st1 ∪ AI.mines st1).
  apply (Inv.add_knowledge_preserves P) in Hrun; [by destruct Hrun|..].
  - intros st3 s [Hdis3 Hsep3] Hin _.
    destruct (AIMore.mark_safe_all_state st3 (cells s))
      as (Eh & Ew & Emv & Em & Es & Ec).
    unfold P. rewrite Em, Es. pose proof (Hsep3 s Hin) as Hs. split; [set_solver|].
    intros s' Hs'. destruct (AIMore.marked_cells _ _ _ _ Ec Hs') as (s0 & Hs0 & ->).
    specialize (Hsep3 s0 Hs0). set_solver.
  - intros st3 s [Hdis3 Hsep3] Hin _.
    destruct (AIMore.mark_mine_all_state st3 (cells s))
      as (Eh & Ew & Emv & Em & Es & Ec).
    unfold P. rewrite Em, Es. pose proof (Hsep3 s Hin) as Hs. split; [set_solver|].
    intros s' Hs'. destruct (AIMore.marked_cells _ _ _ _ Ec Hs') as (s0 & Hs0 & ->).
    specialize (Hsep3 s0 Hs0). set_solver.
  - intros st3 kb [Hdis3 Hsep3] Hsub. unfold P. simpl. split; [done|].
    intros s Hs. by apply Hsep3, Hsub.
  - intros st3 d [Hdis3 Hsep3] (big & small & Hbig & _ & _ & _ & _ & -> & _).
    unfold P. simpl. split; [done|].
    intros s [Hs|Hs]%elem_of_app; [by apply Hsep3|].
    apply list_elem_of_singleton in Hs as ->. simpl.
    specialize (Hsep3 big Hbig). set_solver.
  - destruct (AIMore.add_sentence_state st c n) as (Eh & Ew & Emv & Em & Es & Hkb).
    unfold P. rewrite Em, Es. split; [set_solver|].
    intros s' Hs'. destruct (Hkb s' Hs') as [(s & Hs & ->)|[-> _]].
    + rewrite mark_safe_cells. specialize (Hsep s Hs). set_solver.
    + simpl. intros loc Hloc Hknown.
      apply AIMore.elem_of_new_cells in Hloc as (_ & _ & _ & _ & Hm & Hs).
      rewrite Em in Hm. rewrite Es in Hs. set_solver.
Qed.

Lemma add_knowledge_keeps_disjoint_witness :
  ∃ st', AI.add_knowledge 3 Scenario.after_first (0, 2) 1 = Py.Ok st'
         ∧ AI.safes st' ## AI.mines st'.
Proof.
  eexists. split; [vm_compute; reflexivity|].
  eapply (add_knowledge_keeps_disjoint 3 Scenario.after_first (0, 2) 1).
  - simpl. set_solver.
  - simpl. by intros s ?%elem_of_nil.
  - simpl. set_solver.
  - vm_compute. reflexivity.
Defined.

Module Settle.

(** [cycles] leaves a loop as it came in, or as 2. *)
Lemma resolve_loop_cycles (fuel : nat) :
  ∀ idx st cyc st' cyc',
    AI.resolve_loop fuel idx st cyc = Py.Ok (st', cyc') → cyc' = cyc ∨ cyc' = 2.
Proof.
  induction fuel as [|fuel IH]; intros idx st cyc st' cyc'; simpl; [done|].
  destruct (AI.knowledge st !! idx) as [s|]; [|intros [= <- <-]; by left].
  destruct (Sent.known_safes s) as [X|].
  { destruct (AI.remove_at _ idx) as [st1| |]; simpl; try done.
    intros Hrun. apply IH in Hrun. tauto. }
  destruct (Sent.known_mines s) as [X|].
  { destruct (AI.remove_at _ idx) as [st1| |]; simpl; try done.
    intros Hrun. apply IH in Hrun. tauto. }
  apply IH.
Qed.

(** A resolution pass that leaves [cycles] alone has found every sentence
    from [idx] on undecided, and has changed nothing. *)
Lemma resolve_loop_quiet (fuel : nat) :
  ∀ idx st cyc st' cyc',
    AI.resolve_loop fuel idx st cyc = Py.Ok (st', cyc') → cyc' ≠ 2 →
    st' = st
    ∧ ∀ j s, (idx ≤ j)%nat → AI.knowledge st !! j = Some s →
        Sent.known_safes s = None ∧ Sent.known_mines s = None.
Proof.
  induction fuel as [|fuel IH]; intros idx st cyc st' cyc'; simpl; [done|].
  destruct (AI.knowledge st !! idx) as [s|] eqn:Hidx.
  - destruct (Sent.known_safes s) as [X|] eqn:Hsafe.
    { destruct (AI.remove_at _ idx) as [st1| |]; simpl; try done.
      intros Hrun Hc. apply resolve_loop_cycles in Hrun. lia. }
    destruct (Sent.known_mines s) as [X|] eqn:Hmine.
    { destruct (AI.remove_at _ idx) as [st1| |]; simpl; try done.
      intros Hrun Hc. apply resolve_loop_cycles in Hrun. lia. }
    intros Hrun Hc. destruct (IH _ _ _ _ _ Hrun Hc) as [-> Hrest].
    split; [done|]. intros j s' Hj Hs'.
    destruct (decide (j = idx)) as [->|Hne]; [|apply (Hrest j); [lia|done]].
    assert (s' = s) as -> by congruence. done.
  - intros [= <- <-] _. split; [done|]. intros j s Hj Hs.
    apply lookup_ge_None in Hidx. apply lookup_lt_Some in Hs. lia.
Qed.

Lemma infer_pair_cycles kb cyc sA sB kb' cyc' :
  AI.infer_pair kb cyc sA sB = (kb', cyc') →
  (kb' = kb ∧ cyc' = cyc) ∨ cyc' = 2.
Proof.
  unfold AI.infer_pair, AI.add_inferred. cbv zeta.
  repeat case_decide; intros [= <- <-]; auto.
Qed.

Lemma infer_inner_cycles (fuel : nat) :
  ∀ sA b kb cyc kb' cyc',
    AI.infer_inner fuel sA b kb cyc = Py.Ok (kb', cyc') →
    (kb' = kb ∧ cyc' = cyc) ∨ cyc' = 2.
Proof.
  induction fuel as [|fuel IH]; intros sA b kb cyc kb' cyc'; simpl; [done|].
  destruct (kb !! b) as [sB|]; [|intros [= <- <-]; by left].
  destruct (AI.infer_pair kb cyc sA sB) as [kb1 c1] eqn:Hpair.
  intros Hrun. apply IH in Hrun. apply infer_pair_cycles in Hpair.
  destruct Hpair as [[-> ->]| ->]; [done|]. right. destruct Hrun as [[_ ->]| ->]; done.
Qed.

Lemma infer_outer_cycles (fuel : nat) :
  ∀ a kb cyc kb' cyc',
    AI.infer_outer fuel a kb cyc = Py.Ok (kb', cyc') →
    (kb' = kb ∧ cyc' = cyc) ∨ cyc' = 2.
Proof.
  induction fuel as [|fuel IH]; intros a kb cyc kb' cyc'; simpl; [done|].
  destruct (kb !! a) as [sA|]; [|intros [= <- <-]; by left].
  destruct (AI.infer_inner fuel sA 0 kb cyc) as [[kb1 c1]| |] eqn:Hin; simpl; try done.
  intros Hrun. apply IH in Hrun. apply infer_inner_cycles in Hin.
  destruct Hin as [[-> ->]| ->]; [done|]. right. destruct Hrun as [[_ ->]| ->]; done.
Qed.

(** No sentence can be resolved and every difference that the inference
    pass would add is there. *)
Definition settled (kb : list Sentence) : Prop :=
  (∀ s, s ∈ kb → Sent.known_safes s = None ∧ Sent.known_mines s = None)
  ∧ (∀ A B, A ∈ kb → B ∈ kb → Derive.proper_pair A B →
       0 < count B - count A → Derive.difference B A ∈ kb).

Lemma while_settles (fuel : nat) :
  ∀ st cyc st',
    AI.while_cycles fuel st cyc = Py.Ok st' → 0 < cyc <= 1 →
    settled (AI.knowledge st').
Proof.
  induction fuel as [|fuel IH]; intros st cyc st'; simpl; [done|].
  intros Hrun Hc. rewrite decide_True in Hrun by lia.
  destruct (AI.resolve_loop fuel 0 st cyc) as [[st1 c1]| |] eqn:Hres;
    simpl in Hrun; try done.
  destruct (AI.infer_outer fuel 0 (AI.knowledge st1) c1) as [[kb2 c2]| |] eqn:Hinf;
    simpl in Hrun; try done.
  pose proof (resolve_loop_cycles _ _ _ _ _ _ Hres) as Hc1.
  pose proof (infer_outer_cycles _ _ _ _ _ _ Hinf) as Hc2.
  destruct (decide (c2 = 2)) as [->|Hc2'].
  { apply (IH _ _ _ Hrun). lia. }
  destruct Hc2 as [[-> ->]|?]; [|done].
  assert (c1 = cyc) as -> by (destruct Hc1; [done|lia]).
  destruct (resolve_loop_quiet _ _ _ _ _ _ Hres Hc2') as [-> Hquiet].
  destruct (Closure.infer_outer_closes _ _ _ _ _ _ Hinf) as [_ Hcl].
  { intros i j ? ? Hi. lia. }
  destruct fuel as [|fuel]; simpl in Hrun; [done|].
  rewrite decide_False in Hrun by lia. injection Hrun as <-. simpl.
  split.
  - intros s [j Hj]%list_elem_of_lookup. apply (Hquiet j); [lia|done].
  - intros A B HA HB Hp Hpos. by apply (Hcl A B).
Qed.

End Settle.

(** X9: when [add_knowledge] returns, the knowledge base is settled: no
    sentence is left that [known_safes] or [known_mines] can resolve (each
    has a non-zero count below the number of its cells), and for every two
    distinct sentences with cells, the cells of one a proper subset of the
    cells of the other, with a positive difference of counts, the
    difference sentence is in the knowledge base. *)
Theorem add_knowledge_settles (fuel : nat) (st : AI.MinesweeperAI) (c : cell) (n : Z)
    (st' : AI.MinesweeperAI) :
  AI.add_knowledge fuel st c n = Py.Ok st' →
  (∀ s, s ∈ AI.knowledge st' →
     Sent.known_safes s = None ∧ Sent.known_mines s = None
     ∧ count s ≠ 0 ∧ count s < Z.of_nat (size (cells s)))
  ∧ (∀ A B, A ∈ AI.knowledge st' → B ∈ AI.knowledge st' →
       Derive.proper_pair A B → 0 < count B - count A →
       Derive.difference B A ∈ AI.knowledge st').
Proof.
  intros Hrun. apply Settle.while_settles in Hrun as [Hq Hcl]; [|lia].
  split; [|done]. intros s Hs. destruct (Hq s Hs) as [Hsafe Hmine].
  split; [done|]. split; [done|].
  by apply (known_cells_by_state s).
Qed.

Lemma add_knowledge_settles_witness :
  ∃ st', AI.add_knowledge 4 (AI.init 3 3) (1, 1) 1 = Py.Ok st'
         ∧ ∀ s, s ∈ AI.knowledge st' → Sent.known_safes s = None.
Proof.
  eexists. split; [vm_compute; reflexivity|].
  intros s Hs.
  eapply (add_knowledge_settles 4 (AI.init 3 3) (1, 1) 1) in Hs as (? & _);
    [done|vm_compute; reflexivity].
Defined.

(** * Truth of what the AI knows *)

Module TruthFacts.

Lemma holds_wf (M : gset cell) (s : Sentence) : Truth.holds M s → Sent.wf s.
Proof.
  unfold Truth.holds, Sent.wf. intros ->.
  assert (Hsub : cells s ∩ M ⊆ cells s) by set_solver.
  apply subseteq_size in Hsub. lia.
Qed.

Lemma holds_known_safes (M : gset cell) (s : Sentence) (X : gset cell) :
  Truth.holds M s → Sent.known_safes s = Some X → X ## M.
Proof.
  unfold Truth.holds, Sent.known_safes. intros Hs.
  case_decide as Hz; [|done]. intros [= <-].
  assert (Hsz : size (cells s ∩ M) = 0%nat) by lia.
  apply KB.size_zero_empty in Hsz. set_solver.
Qed.

Lemma holds_known_mines (M : gset cell) (s : Sentence) (X : gset cell) :
  Truth.holds M s → Sent.known_mines s = Some X → X ⊆ M.
Proof.
  unfold Truth.holds, Sent.known_mines. intros Hs.
  case_decide as Hle; [|done]. intros [= <-].
  assert (Heq : cells s ∩ M = cells s).
  { apply set_subseteq_size_eq; [set_solver|lia]. }
  set_solver.
Qed.

Lemma holds_mark_mine (M : gset cell) (s : Sentence) (c : cell) :
  Truth.holds M s → c ∈ M → Truth.holds M (Sent.mark_mine s c).
Proof.
  unfold Truth.holds. intros Hs Hc.
  destruct (decide (c ∈ cells s)) as [Hin|Hout].
  - rewrite (mark_mine_in s c Hin). simpl.
    assert ((cells s ∖ {[c]}) ∩ M = (cells s ∩ M) ∖ {[c]}) as -> by set_solver.
    rewrite size_remove_cell by set_solver. lia.
  - by rewrite (mark_mine_notin s c Hout).
Qed.

Lemma holds_mark_safe (M : gset cell) (s : Sentence) (c : cell) :
  Truth.holds M s → c ∉ M → Truth.holds M (Sent.mark_safe s c).
Proof.
  unfold Truth.holds. intros Hs Hc.
  rewrite mark_safe_count, mark_safe_cells.
  assert ((cells s ∖ {[c]}) ∩ M = cells s ∩ M) as -> by set_solver. done.
Qed.

Lemma holds_difference (M : gset cell) (big small : Sentence) :
  Truth.holds M big → Truth.holds M small → cells small ⊆ cells big →
  Truth.holds M (Derive.difference big small).
Proof.
  unfold Truth.holds. intros Hb Hs Hsub. simpl.
  assert ((cells big ∖ cells small) ∩ M = (cells big ∩ M) ∖ (cells small ∩ M))
    as -> by set_solver.
  assert (Hsub' : cells small ∩ M ⊆ cells big ∩ M) by set_solver.
  rewrite (size_difference (cells big ∩ M) (cells small ∩ M)) by done.
  apply subseteq_size in Hsub'. lia.
Qed.

End TruthFacts.

(** X10: on a sentence that is true of the mines [M] (its count is the
    number of its cells in [M]), the cells [known_safes] returns contain no
    mine and the cells [known_mines] returns are all mines; [mark_mine] of
    a mine and [mark_safe] of a cell that is no mine leave it true; the
    difference with a true sentence on a subset of its cells is true; and
    the count is between 0 and the number of cells. *)
Theorem sentence_operations_sound (M : gset cell) (s : Sentence) :
  Truth.holds M s →
  Sent.wf s
  ∧ (∀ X, Sent.known_safes s = Some X → X ## M)
  ∧ (∀ X, Sent.known_mines s = Some X → X ⊆ M)
  ∧ (∀ c, c ∈ M → Truth.holds M (Sent.mark_mine s c))
  ∧ (∀ c, c ∉ M → Truth.holds M (Sent.mark_safe s c))
  ∧ (∀ small, Truth.holds M small → cells small ⊆ cells s →
       Truth.holds M (Derive.difference s small)).
Proof.
  intros Hs. split; [by eapply TruthFacts.holds_wf|].
  split; [intros X; by apply TruthFacts.holds_known_safes|].
  split; [intros X; by apply TruthFacts.holds_known_mines|].
  split; [intros c; by apply TruthFacts.holds_mark_mine|].
  split; [intros c; by apply TruthFacts.holds_mark_safe|].
  intros small. by apply TruthFacts.holds_difference.
Qed.

Lemma sentence_operations_sound_witness :
  Truth.holds {[(0, 1); (0, 2)]} Example.B
  ∧ Truth.holds {[(0, 1); (0, 2)]} (Sent.mark_mine Example.B (0, 2))
  ∧ Sent.wf Example.B.
Proof.
  assert (H : Truth.holds {[(0, 1); (0, 2)]} Example.B).
  { unfold Truth.holds. vm_compute. reflexivity. }
  split; [exact H|].
  destruct (sentence_operations_sound _ _ H) as (Hwf & _ & _ & Hmine & _).
  split; [|exact Hwf]. apply Hmine. set_solver.
Defined.

Module SoundFacts.

Lemma sound_mark_safe (M : gset cell) (st : AI.MinesweeperAI) (c : cell) :
  Truth.sound M st → c ∉ M → Truth.sound M (AI.mark_safe st c).
Proof.
  intros (Hs & Hmv & Hm & Hkb) Hc. unfold Truth.sound. simpl.
  split; [set_solver|]. split; [done|]. split; [done|].
  intros s' (s & -> & Hin)%list_elem_of_fmap.
  apply TruthFacts.holds_mark_safe; [by apply Hkb|done].
Qed.

Lemma sound_mark_mine (M : gset cell) (st : AI.MinesweeperAI) (c : cell) :
  Truth.sound M st → c ∈ M → Truth.sound M (AI.mark_mine st c).
Proof.
  intros (Hs & Hmv & Hm & Hkb) Hc. unfold Truth.sound. simpl.
  split; [done|]. split; [done|]. split; [set_solver|].
  intros s' (s & -> & Hin)%list_elem_of_fmap.
  apply TruthFacts.holds_mark_mine; [by apply Hkb|done].
Qed.

Lemma sound_mark_safe_all (M : gset cell) (st : AI.MinesweeperAI) (X : gset cell) :
  Truth.sound M st → X ## M → Truth.sound M (AI.mark_safe_all st X).
Proof.
  intros Hst HX. unfold AI.mark_safe_all.
  assert (Hl : ∀ c, c ∈ elements X → c ∉ M).
  { intros c Hc%elem_of_elements. set_solver. }
  revert st Hst. induction (elements X) as [|c l IH]; intros st Hst; simpl; [done|].
  apply IH.
  - intros c' Hc'. apply Hl. set_solver.
  - apply sound_mark_safe; [done|]. apply Hl. set_solver.
Qed.

Lemma sound_mark_mine_all (M : gset cell) (st : AI.MinesweeperAI) (X : gset cell) :
  Truth.sound M st → X ⊆ M → Truth.sound M (AI.mark_mine_all st X).
Proof.
  intros Hst HX. unfold AI.mark_mine_all.
  assert (Hl : ∀ c, c ∈ elements X → c ∈ M).
  { intros c Hc%elem_of_elements. set_solver. }
  revert st Hst. induction (elements X) as [|c l IH]; intros st Hst; simpl; [done|].
  apply IH.
  - intros c' Hc'. apply Hl. set_solver.
  - apply sound_mark_mine; [done|]. apply Hl. set_solver.
Qed.

(** The loops of [add_knowledge] keep what is known true. *)
Lemma while_sound (M : gset cell) (fuel : nat) (st : AI.MinesweeperAI) (cyc : Z) (st' : AI.MinesweeperAI) :
  Truth.sound M st → AI.while_cycles fuel st cyc = Py.Ok st' → Truth.sound M st'.
Proof.
  apply (Inv.while_preserves (Truth.sound M)).
  - intros st1 s Hst Hin Hz. apply sound_mark_safe_all; [done|].
    destruct Hst as (_ & _ & _ & Hkb).
    apply (TruthFacts.holds_known_safes M s); [by apply Hkb|].
    unfold Sent.known_safes. by rewrite decide_True.
  - intros st1 s Hst Hin Hle. apply sound_mark_mine_all; [done|].
    destruct Hst as (_ & _ & _ & Hkb).
    apply (TruthFacts.holds_known_mines M s); [by apply Hkb|].
    unfold Sent.known_mines. by rewrite decide_True.
  - intros st1 kb (Hs & Hmv & Hm & Hkb) Hsub. unfold Truth.sound. simpl.
    repeat (split; [done|]). intros s Hs'. by apply Hkb, Hsub.
  - intros st1 d (Hs & Hmv & Hm & Hkb)
      (big & small & Hbig & Hsmall & _ & Hsub & _ & -> & _).
    unfold Truth.sound. simpl. repeat (split; [done|]).
    intros s [Hin|Hin]%elem_of_app; [by apply Hkb|].
    apply list_elem_of_singleton in Hin as ->.
    apply TruthFacts.holds_difference; [by apply Hkb..|done].
Qed.

(** Steps 1 to 3 keep what is known true when the count is the number of
    mines around the cell and none of them is known yet. *)
Lemma add_sentence_sound (M : gset cell) (st : AI.MinesweeperAI) (c : cell) (n : Z) :
  Truth.sound M st → c ∉ M →
  Board.in_grid (AI.height st) (AI.width st) M →
  n = Z.of_nat (size ((list_to_set (Board.around c) : gset cell) ∩ (M ∖ {[c]}))) →
  (∀ loc, loc ∈ Board.around c → loc ∉ AI.mines st) →
  Truth.sound M (AI.add_sentence st c n).
Proof.
  intros (Hs & Hmv & Hm & Hkb) Hc Hgrid -> Hfresh.
  destruct (AIMore.add_sentence_state st c
              (Z.of_nat (size ((list_to_set (Board.around c) : gset cell)
                               ∩ (M ∖ {[c]})))))
    as (Eh & Ew & Emv & Em & Es & Hnew).
  unfold Truth.sound. rewrite Emv, Em, Es.
  split; [set_solver|]. split; [set_solver|]. split; [done|].
  intros s' Hs'. destruct (Hnew s' Hs') as [(s & Hin & ->)|[-> _]].
  - apply TruthFacts.holds_mark_safe; [by apply Hkb|done].
  - unfold Truth.holds. cbn [cells count]. do 2 f_equal.
    apply set_eq. intros loc.
    rewrite !elem_of_intersection, elem_of_difference, elem_of_singleton,
      AIMore.elem_of_new_cells, elem_of_list_to_set.
    rewrite Eh, Ew, Emv, Em, Es. split.
    + intros (Hloc & Hmine & Hne). specialize (Hgrid loc Hmine).
      split; [|done]. split; [done|]. split; [done|]. split; [done|].
      split; [|split]; [set_solver|by apply Hfresh|set_solver].
    + tauto.
Qed.

End SoundFacts.

(** X11: if all the AI knows is true of a board built by [__init__] of the
    same size (no cell in [safes] or [moves_made] is a mine, every cell in
    [mines] is one, every sentence has as count the number of its cells
    that are mines), and [add_knowledge] is called for a cell that is no
    mine with the count the board reports, while no cell around it is a
    known mine yet, then all the AI knows afterwards is true as well. *)
Theorem add_knowledge_sound (h w target : Z) (draws : list Z) (g : Board.Minesweeper)
    (fuel : nat) (st : AI.MinesweeperAI) (c : cell) (n : Z) (st' : AI.MinesweeperAI) :
  Board.init h w target draws = Py.Ok g →
  AI.height st = h → AI.width st = w →
  Truth.sound (Board.mines g) st →
  Scenario.board_valid g (c, n) →
  (∀ loc, loc ∈ Board.around c → loc ∉ AI.mines st) →
  AI.add_knowledge fuel st c n = Py.Ok st' →
  Truth.sound (Board.mines g) st'.
Proof.
  intros Hg Hh Hw Hst [Hmine Hcount] Hfresh Hrun. simpl in Hmine, Hcount.
  destruct (BoardMore.init_agree _ _ _ _ _ Hg) as (_ & _ & _ & _ & Hgrid & _).
  assert (Hc : c ∉ Board.mines g).
  { intros Hin. specialize (Hgrid c Hin) as [Hi Hj].
    destruct c as [i j]. simpl in Hi, Hj.
    rewrite (BoardCount.is_mine_on_board _ _ _ _ _ _ _ Hg Hi Hj) in Hmine.
    rewrite bool_decide_eq_true_2 in Hmine by done. discriminate. }
  destruct (BoardCount.nearby_mines_on_board _ _ _ _ _ c Hg) as [Hnear _].
  rewrite Hnear in Hcount. injection Hcount as Hn.
  unfold AI.add_knowledge in Hrun.
  apply (SoundFacts.while_sound (Board.mines g)) in Hrun; [done|].
  apply SoundFacts.add_sentence_sound; try done.
  by rewrite Hh, Hw.
Qed.

Lemma add_knowledge_sound_witness :
  let g := Board.mk 3 3 {[(2, 2)]}
             [[false; false; false]; [false; false; false]; [false; false; true]] ∅ in
  let st' := AI.mk 3 3 {[(0, 0)]} ∅ {[(0, 0); (0, 1); (1, 0); (1, 1)]} [] in
  Board.init 3 3 1 [2; 2] = Py.Ok g
  ∧ AI.add_knowledge 3 (AI.init 3 3) (0, 0) 0 = Py.Ok st'
  ∧ Truth.sound (Board.mines g) st'.
Proof.
  intros g st'.
  assert (Hg : Board.init 3 3 1 [2; 2] = Py.Ok g) by (vm_compute; reflexivity).
  assert (Hrun : AI.add_knowledge 3 (AI.init 3 3) (0, 0) 0 = Py.Ok st')
    by (vm_compute; reflexivity).
  split; [exact Hg|]. split; [exact Hrun|].
  apply (add_knowledge_sound 3 3 1 [2; 2] g 3 (AI.init 3 3) (0, 0) 0 st' Hg).
  - reflexivity.
  - reflexivity.
  - unfold Truth.sound. simpl. repeat (split; [set_solver|]).
    by intros s ?%elem_of_nil.
  - split; vm_compute; reflexivity.
  - simpl. set_solver.
  - exact Hrun.
Defined.

(** * Marking several cells *)

Module MarkAll.

Lemma mark_mine_closed (s : Sentence) (c : cell) :
  Sent.mark_mine s c
  = mkSentence (cells s ∖ {[c]})
               (count s - Z.of_nat (size (cells s ∩ {[c]}))).
Proof.
  destruct (decide (c ∈ cells s)) as [Hin|Hout].
  - rewrite (mark_mine_in s c Hin). f_equal.
    assert (cells s ∩ {[c]} = {[c]}) as -> by set_solver.
    rewrite size_singleton. lia.
  - rewrite (mark_mine_notin s c Hout). destruct s as [X k]. simpl in *. f_equal.
    + set_solver.
    + assert (X ∩ {[c]} = ∅) as -> by set_solver. rewrite size_empty. lia.
Qed.

Lemma mark_safe_closed (s : Sentence) (c : cell) :
  Sent.mark_safe s c = mkSentence (cells s ∖ {[c]}) (count s).
Proof.
  destruct s as [X k]. unfold Sent.mark_safe. simpl. case_decide; [done|].
  f_equal. set_solver.
Qed.

Lemma foldl_mark_mine (l : list cell) :
  NoDup l → ∀ st : AI.MinesweeperAI,
  AI.knowledge (foldl AI.mark_mine st l)
  = (λ s, mkSentence (cells s ∖ list_to_set l)
                     (count s - Z.of_nat (size (cells s ∩ list_to_set l))))
    <$> AI.knowledge st.
Proof.
  induction 1 as [|c l Hc Hnd IH]; intros st; cbn [foldl].
  - rewrite <- (list_fmap_id (AI.knowledge st)) at 1.
    apply list_fmap_ext. intros i [X k] _. unfold id. cbn [cells count]. rewrite list_to_set_nil. f_equal.
    + set_solver.
    + assert (X ∩ ∅ = ∅) as -> by set_solver. rewrite size_empty. lia.
  - rewrite IH. cbn [AI.mark_mine AI.knowledge]. rewrite <- list_fmap_compose.
    apply list_fmap_ext. intros i s _. cbn [compose].
    rewrite mark_mine_closed, list_to_set_cons. cbn [cells count]. f_equal.
    + set_solver.
    + assert (Hsplit : cells s ∩ ({[c]} ∪ list_to_set l)
                       = (cells s ∩ {[c]}) ∪ ((cells s ∖ {[c]}) ∩ list_to_set l)).
      { apply set_eq. intros x. destruct (decide (x = c)); set_solver. }
      rewrite Hsplit.
      rewrite (size_union (cells s ∩ {[c]}) ((cells s ∖ {[c]}) ∩ list_to_set l))
        by set_solver.
      lia.
Qed.

Lemma foldl_mark_safe (l : list cell) (st : AI.MinesweeperAI) :
  AI.knowledge (foldl AI.mark_safe st l)
  = (λ s, mkSentence (cells s ∖ list_to_set l) (count s)) <$> AI.knowledge st.
Proof.
  revert st. induction l as [|c l IH]; intros st; cbn [foldl].
  - rewrite <- (list_fmap_id (AI.knowledge st)) at 1.
    apply list_fmap_ext. intros i [X k] _. unfold id. cbn [cells count]. rewrite list_to_set_nil.
    f_equal. set_solver.
  - rewrite IH. cbn [AI.mark_safe AI.knowledge]. rewrite <- list_fmap_compose.
    apply list_fmap_ext. intros i s _. cbn [compose].
    rewrite mark_safe_closed, list_to_set_cons. cbn [cells count]. f_equal.
    set_solver.
Qed.

End MarkAll.

(** X12: calling [MinesweeperAI.mark_mine] for each of several distinct
    cells, in any order, adds them to [mines] and leaves every sentence
    with its other cells and its count lowered by the number of its cells
    among them; calling [mark_safe] for each of them adds them to [safes]
    and leaves every sentence with its other cells and its count. *)
Theorem marking_cells_in_turn (st : AI.MinesweeperAI) (l : list cell) :
  NoDup l →
  (AI.mines (foldl AI.mark_mine st l) = AI.mines st ∪ list_to_set l
   ∧ AI.safes (foldl AI.mark_mine st l) = AI.safes st
   ∧ AI.knowledge (foldl AI.mark_mine st l)
     = (λ s, mkSentence (cells s ∖ list_to_set l)
                        (count s - Z.of_nat (size (cells s ∩ list_to_set l))))
       <$> AI.knowledge st)
  ∧ (AI.safes (foldl AI.mark_safe st l) = AI.safes st ∪ list_to_set l
     ∧ AI.mines (foldl AI.mark_safe st l) = AI.mines st
     ∧ AI.knowledge (foldl AI.mark_safe st l)
       = (λ s, mkSentence (cells s ∖ list_to_set l) (count s)) <$> AI.knowledge st)
  ∧ (∀ l', l ≡ₚ l' →
       foldl AI.mark_mine st l' = foldl AI.mark_mine st l
       ∧ foldl AI.mark_safe st l' = foldl AI.mark_safe st l).
Proof.
  intros Hnd.
  destruct (mark_mine_all_fields st l) as (_ & _ & _ & Hm1 & Hs1).
  destruct (mark_safe_all_fields st l) as (_ & _ & _ & Hm2 & Hs2).
  split; [|split].
  - split; [done|]. split; [done|]. by apply MarkAll.foldl_mark_mine.
  - split; [done|]. split; [done|]. apply MarkAll.foldl_mark_safe.
  - intros l' Hp. split.
    + by apply mark_mine_any_order.
    + by apply mark_safe_any_order.
Qed.

Lemma marking_cells_in_turn_witness :
  let st := AI.mk 1 4 ∅ ∅ ∅ [mkSentence {[(0, 1); (0, 2); (0, 3)]} 2] in
  AI.knowledge (foldl AI.mark_mine st [(0, 1); (0, 3)])
  = (λ s, mkSentence (cells s ∖ list_to_set [(0, 1); (0, 3)])
                     (count s - Z.of_nat (size (cells s ∩ list_to_set [(0, 1); (0, 3)]))))
    <$> AI.knowledge st.
Proof.
  intros st. apply (marking_cells_in_turn st [(0, 1); (0, 3)]).
  repeat constructor; set_solver.
Defined.

(** * The text dump of the board *)

Module DumpFacts.

(** The marks of a row, read off the set of mines. *)
Definition marks_of (ms : gset cell) (i : Z) (js : list Z) : Dump.text :=
  j ← js; if decide ((i, j) ∈ ms) then [Dump.bar; Dump.ex] else [Dump.bar; Dump.blank].

Lemma row_marks_ok (h w : Z) (ms : gset cell) (b : list (list bool)) (i : Z) (js : list Z) :
  Placement.agree h w ms b → 0 <= i < h → (∀ j, j ∈ js → 0 <= j < w) →
  Dump.row_marks b i js = Py.Ok (marks_of ms i js).
Proof.
  intros Hag Hi. induction js as [|j js IH]; intros Hjs; cbn [Dump.row_marks]; [done|].
  assert (Hj : 0 <= j < w) by (apply Hjs; set_solver).
  destruct (Hag i j Hi Hj) as (row & Hrow & Hcell).
  rewrite (Placement.getitem_nonneg b i row (proj1 Hi) Hrow). simpl.
  rewrite (Placement.getitem_nonneg row j _ (proj1 Hj) Hcell). simpl.
  rewrite IH by (intros j' Hj'; apply Hjs; set_solver). simpl.
  unfold marks_of. simpl. do 2 f_equal.
  destruct (decide ((i, j) ∈ ms)) as [Hm|Hm].
  - by rewrite bool_decide_eq_true_2.
  - by rewrite bool_decide_eq_false_2.
Qed.

Lemma rows_ok (h w : Z) (ms : gset cell) (b : list (list bool)) (idxs : list Z) :
  Placement.agree h w ms b → (∀ i, i ∈ idxs → 0 <= i < h) →
  Dump.rows b w idxs
  = Py.Ok (i ← idxs; [Dump.rule w; marks_of ms i (Py.range 0 w) ++ [Dump.bar]]).
Proof.
  intros Hag. induction idxs as [|i idxs IH]; intros His; cbn [Dump.rows]; [done|].
  rewrite (row_marks_ok h w ms b i (Py.range 0 w) Hag).
  - simpl. rewrite IH by (intros i' Hi'; apply His; set_solver). done.
  - apply His. set_solver.
  - intros j Hj. unfold Py.range in Hj. apply elem_of_seqZ in Hj. lia.
Qed.

Lemma length_rule (w : Z) : length (Dump.rule w) = (2 * Z.to_nat w + 1)%nat.
Proof.
  unfold Dump.rule. rewrite length_app.
  assert (Hn : ∀ n : nat,
            length (mjoin (replicate n [Dump.dash; Dump.dash])) = (2 * n)%nat).
  { induction n as [|n IH]; [done|].
    change (mjoin (replicate (S n) [Dump.dash; Dump.dash]))
      with ([Dump.dash; Dump.dash] ++ mjoin (replicate n [Dump.dash; Dump.dash])).
    rewrite length_app, IH. simpl. lia. }
  rewrite Hn. simpl. lia.
Qed.

Lemma length_marks_of (ms : gset cell) (i : Z) (js : list Z) :
  length (marks_of ms i js) = (2 * length js)%nat.
Proof.
  unfold marks_of. induction js as [|j js IH]; [done|].
  rewrite bind_cons, length_app, IH. case_decide; simpl; lia.
Qed.

End DumpFacts.

(** X13: on a board returned by [__init__], [print] does not raise; it
    prints, for each row, a rule of dashes and then the row, with ["|X"]
    for the cells in [self.mines] and ["| "] for the others and a closing
    bar, and a last rule; that is [2*height + 1] lines of [2*width + 1]
    characters each. *)
Theorem print_shows_mines (h w target : Z) (draws : list Z) (g : Board.Minesweeper) :
  Board.init h w target draws = Py.Ok g →
  ∃ lines,
    Dump.print g = Py.Ok lines
    ∧ lines = (i ← Py.range 0 h;
               [Dump.rule w;
                DumpFacts.marks_of (Board.mines g) i (Py.range 0 w) ++ [Dump.bar]])
              ++ [Dump.rule w]
    ∧ length lines = (2 * Z.to_nat h + 1)%nat
    ∧ Forall (λ line, length line = (2 * Z.to_nat w + 1)%nat) lines.
Proof.
  intros Hg.
  destruct (BoardMore.init_agree _ _ _ _ _ Hg) as (Hh & Hw & _ & Hag & _).
  eexists. split; [|split; [reflexivity|]].
  - unfold Dump.print. rewrite Hh, Hw.
    rewrite (DumpFacts.rows_ok h w (Board.mines g)); [done|done|].
    intros i Hi. unfold Py.range in Hi. apply elem_of_seqZ in Hi. lia.
  - assert (Hrow : ∀ idxs : list Z,
      length (i ← idxs; [Dump.rule w;
                DumpFacts.marks_of (Board.mines g) i (Py.range 0 w) ++ [Dump.bar]])
      = (2 * length idxs)%nat
      ∧ Forall (λ line : Dump.text, length line = (2 * Z.to_nat w + 1)%nat)
          (i ← idxs; [Dump.rule w;
                DumpFacts.marks_of (Board.mines g) i (Py.range 0 w) ++ [Dump.bar]])).
    { induction idxs as [|i idxs [IH1 IH2]]; [by split|].
      rewrite bind_cons. split.
      - rewrite length_app, IH1. simpl. lia.
      - apply Forall_app. split; [|done].
        apply Forall_cons. split; [apply DumpFacts.length_rule|].
        apply Forall_cons. split; [|done].
        rewrite length_app, DumpFacts.length_marks_of. unfold Py.range.
        rewrite length_seqZ. simpl. lia. }
    destruct (Hrow (Py.range 0 h)) as [Hlen Hall]. split.
    + rewrite length_app, Hlen. unfold Py.range. rewrite length_seqZ. simpl. lia.
    + apply Forall_app. split; [done|].
      apply Forall_cons. split; [apply DumpFacts.length_rule|done].
Qed.

Lemma print_shows_mines_witness :
  ∃ g lines,
    Board.init 1 2 1 [0; 1] = Py.Ok g
    ∧ Dump.print g = Py.Ok lines
    ∧ length lines = 3%nat.
Proof.
  assert (Hg : Board.init 1 2 1 [0; 1]
               = Py.Ok (Board.mk 1 2 {[(0, 1)]} [[false; true]] ∅))
    by (vm_compute; reflexivity).
  destruct (print_shows_mines 1 2 1 [0; 1] _ Hg) as (lines & Hp & _ & Hlen & _).
  exists (Board.mk 1 2 {[(0, 1)]} [[false; true]] ∅), lines.
  split; [exact Hg|]. split; [exact Hp|exact Hlen].
Defined.
